(** * mpd-fzf: a shallow embedding of [mpd-fzf.go] and its specification

    The program reads the MPD database, renders one line per track for
    the fzf selector, decodes the selector's output and reconciles the
    MPD queue.  Go strings are byte sequences and are modelled as
    [list ascii]; Go [int] values are modelled as [Z] (every integer the
    program computes is a length, an index or a small difference of
    those, so 64-bit wrap-around never occurs).  Code that can call
    [os.Exit] or panic returns a [result]. *)

From Stdlib Require Import ZArith Ascii String DecimalString Floats Uint63.
From stdpp Require Import gmap strings list.

Open Scope Z_scope.

(** ** Basic data *)

Abbreviation gostring := (list ascii).

(** A string literal of the Go source, as bytes. *)
Definition bytes (s : string) : gostring := list_ascii_of_string s.

(** [len(s)] *)
Definition len {A} (s : list A) : Z := Z.of_nat (length s).

(** [s[:i]] and [s[i:]]; the callers establish [0 <= i <= len(s)], or
    check it first where the source can panic. *)
Definition slice_to {A} (s : list A) (i : Z) : list A := take (Z.to_nat i) s.
Definition slice_from {A} (s : list A) (i : Z) : list A := drop (Z.to_nat i) s.

(** How a call that does not return normally ends: [os.Exit(code)], with
    the line [fail] printed on the error stream before it (if any), or a
    runtime panic. *)
Inductive failure :=
  | Exited (code : Z) (stderr : option gostring)
  | Panicked (msg : gostring).

Inductive result (A : Type) :=
  | Ok (a : A)
  | Fail (f : failure).
Arguments Ok {A} a.
Arguments Fail {A} f.

Definition bind {A B} (r : result A) (k : A → result B) : result B :=
  match r with
  | Ok a => k a
  | Fail f => Fail f
  end.

Notation "'let*' x ':=' r 'in' k" := (bind r (fun x => k))
  (at level 10, x name, r at level 100, k at level 200, only parsing).

(** [for i, s := range xs { ys[i] = f(s) }] with a body that may fail. *)
Fixpoint mapR {A B} (f : A → result B) (xs : list A) : result (list B) :=
  match xs with
  | [] => Ok []
  | x :: xs' => let* y := f x in let* ys := mapR f xs' in Ok (y :: ys)
  end.

(** An [error] value, as far as the program inspects it: an
    [*exec.ExitError] carrying the child's wait status, or anything else.
    [ExitStatus] is the exit code, or [-1] when the child did not exit
    (it was killed by a signal). *)
Inductive error :=
  | ExitError (ExitStatus : Z) (text : gostring)
  | OtherError (text : gostring).

Definition Error (e : error) : gostring :=
  match e with
  | ExitError _ t => t
  | OtherError t => t
  end.

(** [fail] and [failOn], source lines 25-35. *)
Definition fail (err : option error) : result unit :=
  match err with
  | Some e => Fail (Exited 1 (Some (Error e)))
  | None => Ok tt
  end.

Definition failOn (b : bool) (message : gostring) : result unit :=
  if b then fail (Some (OtherError message)) else Ok tt.

(** ** Package [strings] *)

Module GoStrings.

Fixpoint HasPrefix (s prefix : gostring) {struct prefix} : bool :=
  match prefix, s with
  | [], _ => true
  | _ :: _, [] => false
  | p :: prefix', c :: s' => bool_decide (c = p) && HasPrefix s' prefix'
  end.

(** [strings.Index]: the index of the first instance of [sep] in [s],
    or [-1]. *)
Fixpoint Index (s sep : gostring) : Z :=
  if HasPrefix s sep then 0
  else match s with
       | [] => -1
       | _ :: s' => let r := Index s' sep in if r <? 0 then -1 else r + 1
       end.

(** [strings.LastIndex]: the index of the last instance of [sep] in
    [s], or [-1]. *)
Fixpoint LastIndex (s sep : gostring) : Z :=
  match s with
  | [] => if HasPrefix [] sep then 0 else -1
  | _ :: s' =>
      let r := LastIndex s' sep in
      if 0 <=? r then r + 1 else if HasPrefix s sep then 0 else -1
  end.

(** [strings.Split(s, sep)] for a one-byte separator, the only use in
    the program ([sep] is the newline): all the substrings between
    separators; never empty: splitting the empty string gives one
    empty substring. *)
Fixpoint Split (s : gostring) (sep : ascii) : list gostring :=
  match s with
  | [] => [[]]
  | c :: s' =>
      if bool_decide (c = sep) then [] :: Split s' sep
      else match Split s' sep with
           | l :: ls => (c :: l) :: ls
           | [] => [[c]]
           end
  end.

Definition HasSuffix (s suffix : gostring) : bool :=
  (length suffix <=? length s)%nat
  && bool_decide (drop (length s - length suffix) s = suffix).

Definition TrimPrefix (s prefix : gostring) : gostring :=
  if HasPrefix s prefix then drop (length prefix) s else s.

Definition TrimSuffix (s suffix : gostring) : gostring :=
  if HasSuffix s suffix then take (length s - length suffix) s else s.

(** [strings.Join(elems, sep)] *)
Fixpoint Join (elems : list gostring) (sep : gostring) : gostring :=
  match elems with
  | [] => []
  | [e] => e
  | e :: elems' => e ++ sep ++ Join elems' sep
  end.

End GoStrings.

(** ** Package [path/filepath] (Unix: the separator is the slash, there
    are no volume names) *)

Module Filepath.

Definition Separator : ascii := "/"%char.

(** The state of [Clean]'s output buffer: whether the path is rooted,
    how many [..] elements lead it (the part before the buffer's
    [dotdot] mark) and the real elements written after them, last
    first. *)
Record lazybuf := {
  rooted : bool;
  dotdots : nat;
  elems : list gostring;
}.

(** One round of [Clean]'s loop, on the path element that starts at
    the read position. *)
Definition cleanElem (out : lazybuf) (e : gostring) : lazybuf :=
  if bool_decide (e = []) then out                 (* empty path element *)
  else if bool_decide (e = bytes ".") then out     (* . element *)
  else if bool_decide (e = bytes "..") then        (* .. element *)
    match elems out with
    | _ :: es => {| rooted := rooted out; dotdots := dotdots out; elems := es |}
    | [] =>
        if rooted out then out
        else {| rooted := false; dotdots := S (dotdots out); elems := [] |}
    end
  else {| rooted := rooted out; dotdots := dotdots out; elems := e :: elems out |}.

Definition bufString (out : lazybuf) : gostring :=
  let body :=
    GoStrings.Join (replicate (dotdots out) (bytes "..") ++ rev (elems out))
                   [Separator] in
  if rooted out then Separator :: body
  else if bool_decide (body = []) then bytes "." else body.

(** [filepath.Clean]: the shortest path equivalent to [path] by
    lexical processing alone. *)
Definition Clean (path : gostring) : gostring :=
  match path with
  | [] => bytes "."
  | c :: _ =>
      let out := {| rooted := bool_decide (c = Separator); dotdots := 0; elems := [] |} in
      bufString (foldl cleanElem out (GoStrings.Split path Separator))
  end.

(** [filepath.Join]: the elements from the first non-empty one on,
    joined by the separator and cleaned; the empty string when every
    element is empty. *)
Fixpoint Join (elem : list gostring) : gostring :=
  match elem with
  | [] => []
  | e :: elem' =>
      if bool_decide (e = []) then Join elem'
      else Clean (GoStrings.Join elem [Separator])
  end.

Fixpoint stripTrailingSeparators (rpath : gostring) : gostring :=
  match rpath with
  | c :: r => if bool_decide (c = Separator) then stripTrailingSeparators r else rpath
  | [] => []
  end.

(** The bytes after the last separator of [path] (all of [path]
    without one). *)
Definition lastElement (path : gostring) : gostring :=
  slice_from path (GoStrings.LastIndex path [Separator] + 1).

(** [filepath.Base] *)
Definition Base (path : gostring) : gostring :=
  if bool_decide (path = []) then bytes "."
  else
    let path := rev (stripTrailingSeparators (rev path)) in
    let path := lastElement path in
    if bool_decide (path = []) then [Separator] else path.

(** [filepath.Ext]: the suffix beginning at the final dot in the final
    element of [path]; empty if there is no dot. *)
Definition Ext (path : gostring) : gostring :=
  let i := GoStrings.LastIndex (lastElement path) (bytes ".") in
  if i <? 0 then [] else slice_from (lastElement path) i.

End Filepath.

(** ** Package [time]: durations are [int64] counts of nanoseconds *)

Module GoTime.

Definition Second : Z := 1000000000.
Definition Hour : Z := 3600 * Second.

Definition isDigit (c : ascii) : bool :=
  (48 <=? nat_of_ascii c)%nat && (nat_of_ascii c <=? 57)%nat.

Definition digitVal (c : ascii) : Z := Z.of_nat (nat_of_ascii c) - 48.

(** [float64(x)] for an [x] of type [uint64] that is at most [1<<63];
    [1<<63] itself is a power of two, so halving it first is exact. *)
Definition float64_of_uint64 (x : Z) : float :=
  if x <? 2 ^ 63 then PrimFloat.of_uint63 (Uint63.of_Z x)
  else (PrimFloat.of_uint63 (Uint63.of_Z (x / 2)) * 2)%float.

(** [uint64(f)] and [int(f)] for a finite [f] within range:
    truncation towards zero. *)
Definition trunc (f : float) : Z :=
  match Prim2SF f with
  | S754_finite neg m e =>
      let v := if 0 <=? e then Z.pos m * 2 ^ e else Z.pos m / 2 ^ (- e) in
      if neg then - v else v
  | _ => 0
  end.

(** [leadingInt]: the leading digits of [s] as a number; an error if
    the number overflows. *)
Fixpoint leadingIntFrom (x : Z) (s : gostring) : option (Z * gostring) :=
  match s with
  | c :: s' =>
      if isDigit c then
        if 2 ^ 63 / 10 <? x then None
        else
          let x := x * 10 + digitVal c in
          if 2 ^ 63 <? x then None else leadingIntFrom x s'
      else Some (x, s)
  | [] => Some (x, [])
  end.

Definition leadingInt (s : gostring) : option (Z * gostring) :=
  leadingIntFrom 0 s.

(** [leadingFraction]: the leading digits of [s] as the numerator [x]
    of a fraction [x/scale]; digits past the precision of [uint64] are
    consumed and dropped. *)
Fixpoint leadingFractionFrom (x : Z) (scale : float) (overflow : bool)
    (s : gostring) : Z * float * gostring :=
  match s with
  | c :: s' =>
      if isDigit c then
        if overflow then leadingFractionFrom x scale true s'
        else if (2 ^ 63 - 1) / 10 <? x then leadingFractionFrom x scale true s'
        else
          let y := x * 10 + digitVal c in
          if 2 ^ 63 <? y then leadingFractionFrom x scale true s'
          else leadingFractionFrom y (scale * 10)%float false s'
      else (x, scale, s)
  | [] => (x, scale, [])
  end.

Definition leadingFraction (s : gostring) : Z * float * gostring :=
  leadingFractionFrom 0 1%float false s.

(** The bytes of a unit name: up to the next digit or period. *)
Fixpoint unitSpan (s : gostring) : gostring * gostring :=
  match s with
  | c :: s' =>
      if bool_decide (c = "."%char) || isDigit c then ([], s)
      else let '(u, rest) := unitSpan s' in (c :: u, rest)
  | [] => ([], [])
  end.

Definition micro : gostring := [ascii_of_nat 194; ascii_of_nat 181; "s"%char].
Definition mu : gostring := [ascii_of_nat 206; ascii_of_nat 188; "s"%char].

Definition unitMap (u : gostring) : option Z :=
  if bool_decide (u = bytes "ns") then Some 1
  else if bool_decide (u = bytes "us") then Some 1000
  else if bool_decide (u = micro) then Some 1000
  else if bool_decide (u = mu) then Some 1000
  else if bool_decide (u = bytes "ms") then Some 1000000
  else if bool_decide (u = bytes "s") then Some Second
  else if bool_decide (u = bytes "m") then Some (60 * Second)
  else if bool_decide (u = bytes "h") then Some Hour
  else None.

(** What one run of the loop body yields. *)
Inductive parsed :=
  | Invalid                 (* [ParseDuration] returns an error *)
  | Parsed (d : Z)
  | OutOfFuel.

(** The loop of [ParseDuration] over the rest of [s]; [d] is the [uint64]
    accumulator.  Every round consumes at least the unit's first byte,
    so [length s] rounds suffice ([parseLoop_fuel] below). *)
Fixpoint parseLoop (fuel : nat) (s : gostring) (d : Z) : parsed :=
  match s with
  | [] => Parsed d
  | c :: _ =>
      match fuel with
      | O => OutOfFuel
      | S fuel' =>
          if negb (bool_decide (c = "."%char) || isDigit c) then Invalid
          else
            match leadingInt s with
            | None => Invalid
            | Some (v, s1) =>
                let pre := negb (length s =? length s1)%nat in
                let '(f, scale, s2, post) :=
                  match s1 with
                  | c1 :: s1' =>
                      if bool_decide (c1 = "."%char) then
                        let '(f, scale, s2) := leadingFraction s1' in
                        (f, scale, s2, negb (length s1' =? length s2)%nat)
                      else (0, 1%float, s1, false)
                  | [] => (0, 1%float, s1, false)
                  end in
                if negb pre && negb post then Invalid
                else
                  let '(u, s3) := unitSpan s2 in
                  if bool_decide (u = []) then Invalid
                  else
                    match unitMap u with
                    | None => Invalid
                    | Some unit =>
                        if 2 ^ 63 / unit <? v then Invalid
                        else
                          let v := v * unit in
                          let v' :=
                            if 0 <? f then
                              v + trunc (float64_of_uint64 f
                                         * (float64_of_uint64 unit / scale))%float
                            else v in
                          if (0 <? f) && (2 ^ 63 <? v') then Invalid
                          else
                            let d := (d + v') mod 2 ^ 64 in
                            if 2 ^ 63 <? d then Invalid
                            else parseLoop fuel' s3 d
                    end
            end
      end
  end.

(** [time.ParseDuration]; [None] is the error return. *)
Definition ParseDuration (s : gostring) : option Z :=
  let '(neg, s) :=
    match s with
    | c :: s' =>
        if bool_decide (c = "-"%char) || bool_decide (c = "+"%char)
        then (bool_decide (c = "-"%char), s')
        else (false, s)
    | [] => (false, s)
    end in
  if bool_decide (s = bytes "0") then Some 0
  else if bool_decide (s = []) then None
  else
    match parseLoop (length s) s 0 with
    | Parsed d =>
        if neg then Some (- d)
        else if 2 ^ 63 - 1 <? d then None
        else Some d
    | _ => None
    end.

Definition pad2 (n : Z) : gostring :=
  [ascii_of_nat (48 + Z.to_nat (n / 10)); ascii_of_nat (48 + Z.to_nat (n mod 10))].

(** [time.Time{}.Add(d).Format("04:05")]: [Add] splits [d] into whole
    seconds and a non-negative nanosecond part; the zero time is
    midnight, so the minute and second of the sum are those of the
    seconds count. *)
Definition zeroAddFormat_04_05 (d : Z) : gostring :=
  let dsec := Z.quot d 1000000000 in
  let nsec := Z.rem d 1000000000 in
  let dsec := if nsec <? 0 then dsec - 1 else dsec in
  let clock := dsec mod 86400 in
  pad2 (clock mod 3600 / 60) ++ bytes ":" ++ pad2 (clock mod 60).

Definition float64_of_int64 (x : Z) : float :=
  if x <? 0 then (- PrimFloat.of_uint63 (Uint63.of_Z (- x)))%float
  else PrimFloat.of_uint63 (Uint63.of_Z x).

(** [Duration.Hours] *)
Definition Hours (d : Z) : float :=
  let hour := Z.quot d Hour in
  let nsec := Z.rem d Hour in
  (float64_of_int64 hour + float64_of_int64 nsec / float64_of_int64 Hour)%float.

End GoTime.

(** ** Package [go-runewidth]

    Modelled from the spec: the package github.com/mattn/go-runewidth,
    which the source imports for [StringWidth], [Truncate] and
    [FillRight], is not part of the repository.  The spec's WidthFormatter
    describes them: a string is a sequence of characters, each occupying
    zero, one or two terminal columns; truncation keeps the largest
    prefix of whole characters whose width plus the ellipsis's width fits
    (scanning from the start and stopping at the first character that
    does not fit) and appends the ellipsis; padding appends spaces up to
    the requested width.  The decoding of a byte string into characters,
    its inverse and the width table are the interface [Unicode]. *)

Class Unicode := {
  rune : Type;
  runes : gostring → list rune;      (* [[]rune(s)] *)
  utf8 : list rune → gostring;       (* [string(r)] *)
  RuneWidth : rune → Z;
}.

Module Runewidth.
Section Runewidth.
Context `{Unicode}.

Definition RunesWidth (r : list rune) : Z :=
  foldr (λ c w, RuneWidth c + w) 0 r.

Definition StringWidth (s : gostring) : Z := RunesWidth (runes s).

(** The characters kept by a truncation to [w] columns, [width]
    columns being taken already. *)
Fixpoint keep (r : list rune) (w width : Z) : list rune :=
  match r with
  | [] => []
  | c :: r' =>
      let cw := RuneWidth c in
      if w <? width + cw then [] else c :: keep r' w (width + cw)
  end.

Definition Truncate (s : gostring) (w : Z) (tail : gostring) : gostring :=
  if StringWidth s <=? w then s
  else
    let w := w - StringWidth tail in
    utf8 (keep (runes s) w 0) ++ tail.

Definition FillRight (s : gostring) (w : Z) : gostring :=
  let count := w - StringWidth s in
  if 0 <? count then s ++ replicate (Z.to_nat count) " "%char else s.

End Runewidth.
End Runewidth.

(** [fmt.Sprintf("%d", n)] *)
Definition Sprintf_d (n : Z) : gostring :=
  bytes (NilZero.string_of_int (Z.to_int n)).

(** ** The program: [mpd-fzf.go] *)

(** Forward slashes are one of the very few characters not allowed in
    paths (source line 22). *)
Definition delimiter : gostring := bytes "////".

(** [keyval], source lines 37-43. *)
Definition keyval (line : gostring) : gostring * gostring :=
  let i := GoStrings.Index line (bytes ":") in
  if (i =? -1) || (i =? len line - 1) then (line, [])
  else (slice_to line i, slice_from line (i + 2)).

Record Track := {
  Album : gostring;
  Artist : gostring;
  Date : gostring;
  Filename : gostring;
  Genre : gostring;
  Path : gostring;
  Time : gostring;
  Title : gostring;
}.

(** [new(Track)] *)
Definition newTrack : Track :=
  {| Album := []; Artist := []; Date := []; Filename := []; Genre := [];
     Path := []; Time := []; Title := [] |}.

(** [formatDurationString], source lines 73-84. *)
Definition formatDurationString (str : gostring) : gostring :=
  match GoTime.ParseDuration (str ++ bytes "s") with
  | None => []
  | Some duration =>
      let format := GoTime.zeroAddFormat_04_05 duration in
      let format :=
        if GoTime.Hour <? duration
        then Sprintf_d (GoTime.trunc (GoTime.Hours duration)) ++ bytes ":" ++ format
        else format in
      bytes "(" ++ format ++ bytes ")"
  end.

(** The method [Set] of [Track], source lines 56-71. *)
Definition Track_Set (t : Track) (key value : gostring) : Track :=
  if bool_decide (key = bytes "Album") then
    {| Album := value; Artist := Artist t; Date := Date t; Filename := Filename t;
       Genre := Genre t; Path := Path t; Time := Time t; Title := Title t |}
  else if bool_decide (key = bytes "Artist") then
    {| Album := Album t; Artist := value; Date := Date t; Filename := Filename t;
       Genre := Genre t; Path := Path t; Time := Time t; Title := Title t |}
  else if bool_decide (key = bytes "Date") then
    {| Album := Album t; Artist := Artist t; Date := value; Filename := Filename t;
       Genre := Genre t; Path := Path t; Time := Time t; Title := Title t |}
  else if bool_decide (key = bytes "Genre") then
    {| Album := Album t; Artist := Artist t; Date := Date t; Filename := Filename t;
       Genre := value; Path := Path t; Time := Time t; Title := Title t |}
  else if bool_decide (key = bytes "Time") then
    {| Album := Album t; Artist := Artist t; Date := Date t; Filename := Filename t;
       Genre := Genre t; Path := Path t; Time := formatDurationString value;
       Title := Title t |}
  else if bool_decide (key = bytes "Title") then
    {| Album := Album t; Artist := Artist t; Date := Date t; Filename := Filename t;
       Genre := Genre t; Path := Path t; Time := Time t; Title := value |}
  else t.

(** [track.Filename = value; track.Path = path], source lines 175-176. *)
Definition Track_begin (t : Track) (filename path : gostring) : Track :=
  {| Album := Album t; Artist := Artist t; Date := Date t; Filename := filename;
     Genre := Genre t; Path := path; Time := Time t; Title := Title t |}.

(** [withoutExt], source lines 86-89. *)
Definition withoutExt (path : gostring) : gostring :=
  let basename := Filepath.Base path in
  GoStrings.TrimSuffix basename (Filepath.Ext basename).

Section Formatter.
Context `{Unicode}.

(** [truncateAndPad], source lines 91-96. *)
Definition truncateAndPad (s : gostring) (maxWidth : Z) (suffix : gostring)
    : result gostring :=
  if maxWidth <? 0
  then Fail (Panicked (bytes "suffix length greater than maxWidth chars"))
  else Ok (Runewidth.FillRight (Runewidth.Truncate s maxWidth suffix) maxWidth).

(** [contentLen] of [trackFormatter], source lines 120-125; [width] is
    what the terminal-size discovery left in the variable. *)
Definition contentLen (width : Z) : Z :=
  let width := if width <=? 20 then 80 else width in
  width - 5.

(** The closure [trackFormatter] returns, source lines 126-137. *)
Definition format (width : Z) (t : Track) : result gostring :=
  let str := Artist t ++ bytes " - " ++ Title t in
  let str := GoStrings.TrimPrefix str (bytes " - ") in
  let str := if bool_decide (str = []) then withoutExt (Filename t) else str in
  let str :=
    if negb (bool_decide (Album t = []))
    then str ++ bytes " {" ++ Album t ++ bytes "}" else str in
  let* str := truncateAndPad str (contentLen width - len (Time t)) (bytes "..") in
  Ok (str ++ Time t ++ delimiter ++ Path t).

End Formatter.

(** [groupByArtist], source lines 140-155.  The first loop fills the map
    [artists]; the second ranges over it, in an order Go leaves
    unspecified: [order] lists the keys as that loop visits them.  The
    slice [shuffled] starts as [len(tracks)] nil pointers and is written
    by index. *)
Definition artistsOf (tracks : list Track) : gmap gostring (list Track) :=
  foldl (λ artists t, <[Artist t := default [] (artists !! Artist t) ++ [t]]> artists)
        ∅ tracks.

Definition storeTrack (st : list (option Track) * Z) (t : Track)
    : result (list (option Track) * Z) :=
  let '(shuffled, i) := st in
  if (0 <=? i) && (i <? len shuffled)
  then Ok (<[Z.to_nat i := Some t]> shuffled, i + 1)
  else Fail (Panicked (bytes "index out of range")).

Fixpoint foldR {A B} (f : B → A → result B) (b : B) (xs : list A) : result B :=
  match xs with
  | [] => Ok b
  | x :: xs' => let* b' := f b x in foldR f b' xs'
  end.

Definition groupByArtist (order : list gostring) (tracks : list Track)
    : result (list (option Track)) :=
  let artists := artistsOf tracks in
  let shuffled := replicate (length tracks) None in
  let* st := foldR (λ st a, foldR storeTrack st (default [] (artists !! a)))
                   (shuffled, 0) order in
  Ok (fst st).

(** [parse], source lines 157-184.  The scanner is its sequence of lines
    and the error [scan.Err()] reports after the last one. *)
Record parser := {
  tracks : list Track;
  track : Track;
  dirs : list gostring;
}.

Definition corrupted : gostring := bytes "Invalid directory state. Corrupted database?".

Definition isTag (key : gostring) : bool :=
  bool_decide (key ∈ [bytes "Artist"; bytes "Album"; bytes "Date"; bytes "Genre";
                      bytes "Time"; bytes "Title"]).

Definition parseLine (st : parser) (line : gostring) : result parser :=
  let '(key, value) := keyval line in
  if bool_decide (key = bytes "directory") then
    Ok {| tracks := tracks st; track := track st; dirs := dirs st ++ [value] |}
  else if bool_decide (key = bytes "end") then
    let* _ := failOn (len (dirs st) <=? 0) corrupted in
    Ok {| tracks := tracks st; track := track st;
          dirs := slice_to (dirs st) (len (dirs st) - 1) |}
  else if isTag key then
    Ok {| tracks := tracks st; track := Track_Set (track st) key value; dirs := dirs st |}
  else if bool_decide (key = bytes "song_begin") then
    Ok {| tracks := tracks st;
          track := Track_begin (track st) value (Filepath.Join (dirs st ++ [value]));
          dirs := dirs st |}
  else if bool_decide (key = bytes "song_end") then
    Ok {| tracks := tracks st ++ [track st]; track := newTrack; dirs := dirs st |}
  else Ok st.

Definition parse (lines : list gostring) (scanErr : option error)
    : result (list Track) :=
  let* st := foldR parseLine {| tracks := []; track := newTrack; dirs := [] |} lines in
  let* _ := fail scanErr in
  Ok (tracks st).

(** [fzfCheckExit], source lines 230-247. *)
Definition fzfCheckExit (err : option error) : result unit :=
  match err with
  | Some (ExitError status _) =>
      (* FZF returns 130 when killed by ctrl+C *)
      if status =? 130 then Fail (Exited 0 None) else fail err
  | Some (OtherError _) => fail err
  | None => Ok tt
  end.

(** [s[i:]], which panics unless [0 <= i <= len(s)]. *)
Definition sliceFrom (s : gostring) (i : Z) : result gostring :=
  if (0 <=? i) && (i <=? len s) then Ok (slice_from s i)
  else Fail (Panicked (bytes "slice bounds out of range")).

(** The body of the loop of [parseFzfOutput], source line 258. *)
Definition decodeLine (s : gostring) : result gostring :=
  sliceFrom s (GoStrings.LastIndex s delimiter + len delimiter).

Definition newline : ascii := ascii_of_nat 10.

(** [parseFzfOutput], source lines 249-262. *)
Definition parseFzfOutput (output : gostring) : result (list gostring) :=
  let songs := GoStrings.Split output newline in
  if (len songs =? 0) || bool_decide (head songs = Some [])
  then Ok []
  else
    let songs :=
      if bool_decide (last songs = Some [])
      then slice_to songs (len songs - 1) else songs in
    mapR decodeLine songs.

(** [strings.Replace(s, old, new, 1)]: the first instance of [old]
    replaced. *)
Definition Replace1 (s old new : gostring) : gostring :=
  let i := GoStrings.Index s old in
  if i <? 0 then s else slice_to s i ++ new ++ slice_from s (i + len old).

(** [expandUser], source lines 186-191; [path[:2]] panics on a path of
    fewer than two bytes. *)
Definition expandUser (path home : gostring) : result gostring :=
  if len path <? 2 then Fail (Panicked (bytes "slice bounds out of range"))
  else if bool_decide (slice_to path 2 = bytes "~/")
       then Ok (Replace1 path (bytes "~") home)
       else Ok path.

(** The regular expression of [findDbFile], source line 215: optional
    white space, [db_file], optional white space, and a non-empty text
    between double quotes, which is the submatch.  Every step of it is
    forced (white space cannot be the next literal, and the quoted text
    cannot hold a quote), so matching is a single scan. *)
Definition isSpace (c : ascii) : bool :=
  bool_decide (c ∈ [ascii_of_nat 9; ascii_of_nat 10; ascii_of_nat 12;
                    ascii_of_nat 13; " "%char]).

Fixpoint skipSpace (s : gostring) : gostring :=
  match s with
  | c :: s' => if isSpace c then skipSpace s' else s
  | [] => []
  end.

Definition dquote : ascii := ascii_of_nat 34.

(** The bytes up to the first double quote, and the rest from it on. *)
Fixpoint quoted (s : gostring) : gostring * gostring :=
  match s with
  | c :: s' =>
      if bool_decide (c = dquote) then ([], s)
      else let '(q, rest) := quoted s' in (c :: q, rest)
  | [] => ([], [])
  end.

Definition matchDbFile (line : gostring) : option gostring :=
  let s := skipSpace line in
  if GoStrings.HasPrefix s (bytes "db_file") then
    match skipSpace (drop 7 s) with
    | c :: s' =>
        if bool_decide (c = dquote) then
          match quoted s' with
          | (q, _ :: _) => if bool_decide (q = []) then None else Some q
          | (_, []) => None
          end
        else None
    | [] => None
    end
  else None.

(** What [findDbFile] asks of the system: the current user's home
    directory, the variable XDG_CONFIG_HOME, and for each path whether
    it opens and then its lines, the scanner's final error and the error
    of closing it. *)
Record ConfEnv := {
  currentHome : gostring + error;
  xdgConfigHome : gostring;
  openConf : gostring → option (list gostring * option error * option error);
}.

Definition confPaths (home xdg : gostring) : list gostring :=
  [Filepath.Join [xdg; bytes "/mpd/mpd.conf"];
   Filepath.Join [home; bytes ".config"; bytes "/mpd/mpd.conf"];
   Filepath.Join [home; bytes ".mpdconf"];
   bytes "/etc/mpd.conf";
   bytes "/usr/local/etc/musicpd.conf"].

(** The loop over the candidate paths: the first that opens. *)
Fixpoint firstOpen (cenv : ConfEnv) (paths : list gostring)
    : option (gostring * (list gostring * option error * option error)) :=
  match paths with
  | [] => None
  | path :: paths' =>
      match openConf cenv path with
      | Some f => Some (path, f)
      | None => firstOpen cenv paths'
      end
  end.

(** The loop over the lines of the configuration file: each match
    assigns [dbFile]. *)
Definition scanDbFile (home : gostring) (dbFile line : gostring) : result gostring :=
  match matchDbFile line with
  | Some m => expandUser m home
  | None => Ok dbFile
  end.

(** [findDbFile], source lines 193-228. *)
Definition findDbFile (cenv : ConfEnv) : result gostring :=
  match currentHome cenv with
  | inr err => Fail (Exited 1 (Some (Error err)))
  | inl home =>
      match firstOpen cenv (confPaths home (xdgConfigHome cenv)) with
      | None => Fail (Exited 1 (Some (bytes "No config file found")))
      | Some (confpath, (lines, scanErr, closeErr)) =>
          let* dbFile := foldR (scanDbFile home) [] lines in
          let* _ := fail scanErr in
          let* _ := fail closeErr in
          let* _ := failOn (bool_decide (dbFile = []))
                      (bytes "Could not find 'db_file' in configuration file '"
                       ++ confpath ++ bytes "'") in
          Ok dbFile
      end
  end.

(** ** The run: external tools and the exit status

    What the operating system and the external tools answer is the
    environment [Env]; what the program does to them is the trace of
    [event]s: each tool it starts, and what it writes to the tool's
    standard input before closing it. *)

Inductive event :=
  | Start (argv : list gostring)
  | Input (lines : list gostring).

Record Env := {
  (* [findDbFile], [os.Open] and [gzip.NewReader]: fatal, or the lines of
     the database and the scanner's final error *)
  database : result (list gostring * option error);
  mapOrder : list gostring;           (* the order of [range artists] *)
  gzClose : option error;
  fClose : option error;
  (* terminal size: what each source yields when it yields a number *)
  tmuxWidth : option Z;
  columnsWidth : option Z;
  sttyWidth : option Z;
  fzfStdinPipe : option error;
  fzfStdoutPipe : option error;
  fzfStart : option error;
  fzfClose : option error;
  (* the selector, given its input lines: its output, the error of
     reading it and the error of [Wait] *)
  fzfRun : list gostring → gostring * option error * option error;
  mpcPlaylist : gostring * option error;
  mpcDelStart : option error;
  mpcDelClose : option error;
  mpcDelWait : option error;
  mpcInsertStart : option error;
  mpcInsertClose : option error;
  mpcInsertWait : option error;
}.

(** A computation that extends the trace, and may exit or panic. *)
Definition M (A : Type) : Type := list event → result A * list event.

Definition ret {A} (a : A) : M A := λ tr, (Ok a, tr).

Definition bindM {A B} (m : M A) (k : A → M B) : M B :=
  λ tr, match m tr with
        | (Ok a, tr') => k a tr'
        | (Fail f, tr') => (Fail f, tr')
        end.

Definition lift {A} (r : result A) : M A := λ tr, (r, tr).

Definition emit (e : event) : M unit := λ tr, (Ok tt, tr ++ [e]).

Notation "'let!' x ':=' m 'in' k" := (bindM m (fun x => k))
  (at level 10, x name, m at level 100, k at level 200, only parsing).

Section Run.
Context `{Unicode}.
Variable env : Env.

(** [readTracks], source lines 340-354. *)
Definition readTracks : M (list (option Track)) :=
  let! db := lift (database env) in
  let! parsed := lift (parse (fst db) (snd db)) in
  let! tracks := lift (groupByArtist (mapOrder env) parsed) in
  let! _ := lift (fail (gzClose env)) in
  let! _ := lift (fail (fClose env)) in
  ret tracks.

(** [trackFormatter], source lines 98-138: tmux pane_width > $COLUMNS >
    stty size > default 80. *)
Definition trackFormatter : M (option Track → result gostring) :=
  let! _ := emit (Start [bytes "tmux"; bytes "display-message"; bytes "-p";
                         bytes "#{pane_width}"]) in
  let! width :=
    match tmuxWidth env with
    | Some w => ret w
    | None =>
        match columnsWidth env with
        | Some w => ret w
        | None =>
            let! _ := emit (Start [bytes "stty"; bytes "size"]) in
            ret (default 0 (sttyWidth env))
        end
    end in
  ret (λ t, match t with
            | Some t => format width t
            | None => Fail (Panicked (bytes "nil pointer dereference"))
            end).

(** [fzfSongs], source lines 264-283. *)
Definition fzfSongs (tracks : list (option Track)) : M (list gostring) :=
  let! format := trackFormatter in
  let! _ := lift (fail (fzfStdinPipe env)) in
  let! _ := lift (fail (fzfStdoutPipe env)) in
  let! _ := emit (Start [bytes "fzf-tmux"; bytes "--no-hscroll"; bytes "-m"]) in
  let! _ := lift (fail (fzfStart env)) in
  let! lines := lift (mapR format tracks) in
  let! _ := emit (Input lines) in
  let! _ := lift (fail (fzfClose env)) in
  let '(fzfOutput, readErr, waitErr) := fzfRun env lines in
  let! _ := lift (fail readErr) in
  let! _ := lift (fzfCheckExit waitErr) in
  lift (parseFzfOutput fzfOutput).

(** [strings.SplitN(s, " ", 2)] *)
Definition SplitN2 (s : gostring) : list gostring :=
  let i := GoStrings.Index s (bytes " ") in
  if i <? 0 then [s] else [slice_to s i; slice_from s (i + 1)].

(** The positions [removeSongs] writes to [mpc del]. *)
Definition stalePositions (fnames : gset gostring) (out : gostring)
    : list gostring :=
  flat_map (λ s, match SplitN2 s with
                 | [pos; fname] =>
                     if bool_decide (fname ∈ fnames) then [pos] else []
                 | _ => []
                 end)
           (GoStrings.Split out newline).

(** [removeSongs], source lines 285-319; the result is the returned
    [error]. *)
Definition removeSongs (songs : list gostring) : M (option error) :=
  let fnames : gset gostring :=
    list_to_set (filter (λ s, s ≠ []) songs) in
  let! _ := emit (Start [bytes "mpc"; bytes "playlist"; bytes "-f";
                         bytes "%position% %file%"]) in
  match snd (mpcPlaylist env) with
  | Some err => ret (Some err)
  | None =>
      let! _ := emit (Start [bytes "mpc"; bytes "del"]) in
      match mpcDelStart env with
      | Some err => ret (Some err)
      | None =>
          let! _ := emit (Input (stalePositions fnames (fst (mpcPlaylist env)))) in
          match mpcDelClose env with
          | Some err => ret (Some err)
          | None => ret (mpcDelWait env)
          end
      end
  end.

(** [insertSongs], source lines 321-338. *)
Definition insertSongs (songs : list gostring) : M (option error) :=
  let! _ := emit (Start [bytes "mpc"; bytes "insert"]) in
  match mpcInsertStart env with
  | Some err => ret (Some err)
  | None =>
      let! _ := emit (Input songs) in
      match mpcInsertClose env with
      | Some err => ret (Some err)
      | None => ret (mpcInsertWait env)
      end
  end.

(** [main], source lines 356-364. *)
Definition main : M unit :=
  let! tracks := readTracks in
  let! songs := fzfSongs tracks in
  if len songs =? 0 then ret tt
  else
    let! err := removeSongs songs in
    let! _ := lift (fail err) in
    let! err := insertSongs songs in
    lift (fail err).

End Run.

(** The exit status of the process for a run of [main]: 0 when [main]
    returns, the argument of [os.Exit], and 2 for a panic. *)
Definition exitCode {A} (r : result A) : Z :=
  match r with
  | Ok _ => 0
  | Fail (Exited code _) => code
  | Fail (Panicked _) => 2
  end.

(** The queue tools are the invocations of [mpc]. *)
Definition isQueueTool (e : event) : bool :=
  match e with
  | Start (cmd :: _) => bool_decide (cmd = bytes "mpc")
  | _ => false
  end.

(** The restriction of [Unicode] to ASCII text: every byte is one
    character, a printable one occupies one column and a control
    character none. *)
Definition asciiWidth (c : ascii) : Z :=
  if (nat_of_ascii c <? 32)%nat || (nat_of_ascii c =? 127)%nat then 0 else 1.

#[local] Instance ascii_unicode : Unicode :=
  {| rune := ascii; runes := id; utf8 := id; RuneWidth := asciiWidth |}.

(** * Properties *)

(** ** Strings *)

Section StringFacts.
Import GoStrings.

Lemma len_nonneg {A} (s : list A) : 0 ≤ len s.
Proof. unfold len. lia. Qed.

Lemma len_app {A} (s t : list A) : len (s ++ t) = len s + len t.
Proof. unfold len. rewrite length_app. lia. Qed.

Lemma len_cons {A} (c : A) (s : list A) : len (c :: s) = len s + 1.
Proof. unfold len. simpl. lia. Qed.

Lemma slice_from_app {A} (s t : list A) : slice_from (s ++ t) (len s) = t.
Proof.
  unfold slice_from, len. rewrite Nat2Z.id. by rewrite drop_app_length.
Qed.

Lemma slice_to_app {A} (s t : list A) : slice_to (s ++ t) (len s) = s.
Proof.
  unfold slice_to, len. rewrite Nat2Z.id. by rewrite take_app_length.
Qed.

Lemma HasPrefix_app (p r : gostring) : HasPrefix (p ++ r) p = true.
Proof.
  induction p as [|c p IH]; simpl; [done|].
  rewrite bool_decide_eq_true_2 by done. exact IH.
Qed.

Lemma HasPrefix_inv (s p : gostring) :
  HasPrefix s p = true → s = p ++ drop (length p) s.
Proof.
  revert s. induction p as [|c p IH]; intros [|d s]; simpl; try done.
  intros [Hd Hp]%andb_prop. apply bool_decide_eq_true_1 in Hd.
  subst d. f_equal. by apply IH.
Qed.

Lemma HasPrefix_byte (c : ascii) (s : gostring) :
  HasPrefix s [c] = bool_decide (head s = Some c).
Proof.
  destruct s as [|d s]; simpl; [done|].
  rewrite andb_true_r. apply bool_decide_ext. naive_solver.
Qed.

(** [Index] for a one-byte separator. *)
Lemma Index_byte_notin (c : ascii) (s : gostring) :
  c ∉ s → Index s [c] = -1.
Proof.
  induction s as [|d s IH]; intros Hc; simpl; [done|].
  apply not_elem_of_cons in Hc as [Hne Hc].
  rewrite bool_decide_eq_false_2 by congruence. simpl.
  rewrite IH by done. done.
Qed.

Lemma Index_byte_first (c : ascii) (k rest : gostring) :
  c ∉ k → Index (k ++ c :: rest) [c] = len k.
Proof.
  induction k as [|d k IH]; intros Hc; simpl.
  - by rewrite bool_decide_eq_true_2.
  - apply not_elem_of_cons in Hc as [Hne Hc].
    rewrite bool_decide_eq_false_2 by congruence. simpl.
    rewrite IH by done. rewrite len_cons.
    pose proof (len_nonneg k).
    destruct (len k <? 0) eqn:E; [apply Z.ltb_lt in E; lia | done].
Qed.

Lemma Index_byte_found (c : ascii) (s : gostring) :
  Index s [c] ≠ -1 →
  ∃ k rest, s = k ++ c :: rest ∧ c ∉ k ∧ Index s [c] = len k.
Proof.
  intros Hi. destruct (decide (c ∈ s)) as [Hin|Hnin].
  - apply list_elem_of_split_l in Hin as (k & rest & -> & Hk).
    exists k, rest. split_and!; [done|done|]. by apply Index_byte_first.
  - by rewrite Index_byte_notin in Hi.
Qed.

(** [LastIndex]: no instance at all, and the last instance. *)
Lemma LastIndex_none (s sep : gostring) :
  sep ≠ [] → (∀ n, HasPrefix (drop n s) sep = false) →
  LastIndex s sep = -1.
Proof.
  intros Hsep. induction s as [|c s IH]; intros Hno.
  - destruct sep; done.
  - cbn [LastIndex]. rewrite IH; [|intros n; apply (Hno (S n))].
    pose proof (Hno 0%nat) as H0. simpl in H0. by rewrite H0.
Qed.

Lemma LastIndex_last (v sep p : gostring) :
  sep ≠ [] →
  (∀ n, (1 ≤ n)%nat → HasPrefix (drop n (sep ++ p)) sep = false) →
  LastIndex (v ++ sep ++ p) sep = len v.
Proof.
  intros Hsep Hno. induction v as [|c v IH].
  - destruct sep as [|c sep]; [done|].
    change ([] ++ (c :: sep) ++ p) with (c :: (sep ++ p)).
    cbn [LastIndex]. rewrite LastIndex_none; [| done |].
    + simpl (0 <=? -1). cbn iota.
      change (c :: sep ++ p) with ((c :: sep) ++ p).
      by rewrite HasPrefix_app.
    + intros n. apply (Hno (S n)). lia.
  - change ((c :: v) ++ sep ++ p) with (c :: (v ++ sep ++ p)).
    cbn [LastIndex]. rewrite IH, len_cons.
    pose proof (len_nonneg v).
    destruct (0 <=? len v) eqn:E; [done | apply Z.leb_gt in E; lia].
Qed.

(** A non-negative [LastIndex] is the position of an instance with no
    instance after it. *)
Lemma LastIndex_found (s sep : gostring) :
  sep ≠ [] → 0 ≤ LastIndex s sep →
  ∃ v p, s = v ++ sep ++ p ∧ LastIndex s sep = len v ∧
         ∀ n, (1 ≤ n)%nat → HasPrefix (drop n (sep ++ p)) sep = false.
Proof.
  intros Hsep. induction s as [|c s IH]; intros Hi.
  - simpl in Hi. destruct sep; [done | simpl in Hi; lia].
  - cbn [LastIndex] in *. destruct (0 <=? LastIndex s sep) eqn:E.
    + apply Z.leb_le in E. destruct (IH E) as (v & p & -> & Hl & Hno).
      exists (c :: v), p. split_and!; [done| rewrite len_cons; lia | done].
    + apply Z.leb_gt in E.
      destruct (HasPrefix (c :: s) sep) eqn:Hp; [|lia].
      exists [], (drop (length sep) (c :: s)).
      split_and!; [by apply HasPrefix_inv | done |].
      intros n Hn. rewrite <- (HasPrefix_inv _ _ Hp).
      destruct n as [|n]; [lia|]. simpl.
      destruct (HasPrefix (drop n s) sep) eqn:Hd; [|done].
      exfalso. clear -Hd E Hsep. revert n Hd.
      induction s as [|d s IHs]; intros n Hd.
      * rewrite drop_nil in Hd. simpl in E. rewrite Hd in E. lia.
      * cbn [LastIndex] in E.
        destruct (0 <=? LastIndex s sep) eqn:E'.
        -- apply Z.leb_le in E'. lia.
        -- destruct n as [|n]; simpl in Hd.
           ++ rewrite Hd in E. lia.
           ++ apply Z.leb_gt in E'. eapply IHs; eauto.
Qed.

(** [Index] finds an instance whenever there is one. *)
Lemma Index_none (s sep : gostring) :
  Index s sep = -1 → ∀ n, HasPrefix (drop n s) sep = false.
Proof.
  induction s as [|c s IH]; intros Hi n.
  - rewrite drop_nil. simpl in Hi. destruct sep; [done | done].
  - cbn [Index] in Hi. destruct (HasPrefix (c :: s) sep) eqn:Hp; [done|].
    destruct n as [|n]; [done|]. simpl. apply IH.
    destruct (Index s sep <? 0) eqn:E.
    + destruct (decide (Index s sep = -1)) as [|Hne]; [done|].
      exfalso. clear -E Hne. apply Z.ltb_lt in E.
      revert E Hne. generalize s. clear. intros s.
      induction s as [|d s IHs]; cbn [Index].
      * destruct (HasPrefix [] sep); lia.
      * destruct (HasPrefix (d :: s) sep); [lia|].
        destruct (Index s sep <? 0) eqn:E; [lia|].
        apply Z.ltb_ge in E. lia.
    + lia.
Qed.

End StringFacts.

Section SplitFacts.
Import GoStrings.

Lemma Split_nonempty (s : gostring) (sep : ascii) : Split s sep ≠ [].
Proof.
  induction s as [|c s IH]; simpl; [done|].
  case_bool_decide; [done|]. by destruct (Split s sep).
Qed.

Lemma Split_notin (l : gostring) (sep : ascii) : sep ∉ l → Split l sep = [l].
Proof.
  induction l as [|c l IH]; intros Hn; simpl; [done|].
  apply not_elem_of_cons in Hn as [Hne Hn].
  rewrite bool_decide_eq_false_2 by congruence. by rewrite IH.
Qed.

Lemma Split_app (l rest : gostring) (sep : ascii) :
  sep ∉ l → Split (l ++ sep :: rest) sep = l :: Split rest sep.
Proof.
  induction l as [|c l IH]; intros Hn; simpl.
  - by rewrite bool_decide_eq_true_2.
  - apply not_elem_of_cons in Hn as [Hne Hn].
    rewrite bool_decide_eq_false_2 by congruence. by rewrite IH.
Qed.

Lemma Join_cons (e e' : gostring) (es : list gostring) (sep : gostring) :
  Join (e :: e' :: es) sep = e ++ sep ++ Join (e' :: es) sep.
Proof. done. Qed.

(** Splitting undoes joining, and joining undoes splitting: a block of
    text is the same thing as its non-empty list of lines. *)
Lemma Split_Join (lines : list gostring) (sep : ascii) :
  lines ≠ [] → Forall (λ l, sep ∉ l) lines →
  Split (Join lines [sep]) sep = lines.
Proof.
  induction lines as [|l lines IH]; [done|]. intros _ Hall.
  apply Forall_cons in Hall as [Hl Hall].
  destruct lines as [|l' lines]; [by apply Split_notin|].
  rewrite Join_cons. change ([sep] ++ ?x) with (sep :: x).
  rewrite Split_app by done. by rewrite IH.
Qed.

Lemma Join_Split (s : gostring) (sep : ascii) :
  Join (Split s sep) [sep] = s ∧ Forall (λ l, sep ∉ l) (Split s sep).
Proof.
  induction s as [|c s [IHj IHf]]; simpl.
  - split; [done|]. repeat constructor. apply not_elem_of_nil.
  - case_bool_decide as Hc.
    + subst c. pose proof (Split_nonempty s sep).
      destruct (Split s sep) as [|l ls] eqn:E; [done|].
      split; [by rewrite Join_cons, IHj|].
      constructor; [apply not_elem_of_nil | done].
    + destruct (Split s sep) as [|l ls] eqn:E.
      { by apply Split_nonempty in E. }
      apply Forall_cons in IHf as [Hl Hls]. split.
      * destruct ls; simpl in *; by rewrite <- IHj.
      * constructor; [|done]. apply not_elem_of_cons. split; [congruence|done].
Qed.

Lemma Join_snoc_empty (lines : list gostring) (sep : gostring) :
  lines ≠ [] → Join (lines ++ [[]]) sep = Join lines sep ++ sep.
Proof.
  induction lines as [|l lines IH]; [done|]. intros _.
  destruct lines as [|l' lines]; [simpl; by rewrite app_nil_r|].
  change ((l :: l' :: lines) ++ [[]]) with (l :: l' :: (lines ++ [[]])).
  rewrite !Join_cons.
  change (l' :: lines ++ [[]]) with ((l' :: lines) ++ [[]]).
  rewrite IH by done. by rewrite <- !app_assoc.
Qed.

End SplitFacts.

(** ** The line splitter [keyval] *)

Lemma keyval_no_colon (line : gostring) :
  ":"%char ∉ line → keyval line = (line, []).
Proof.
  intros Hn. unfold keyval, bytes. simpl list_ascii_of_string.
  by rewrite Index_byte_notin.
Qed.

Lemma keyval_colon_last (k : gostring) :
  ":"%char ∉ k → keyval (k ++ bytes ":") = (k ++ bytes ":", []).
Proof.
  intros Hn. unfold keyval, bytes. simpl list_ascii_of_string.
  rewrite Index_byte_first by done. rewrite len_app.
  change (len [":"%char]) with 1.
  replace (len k =? len k + 1 - 1) with true by (symmetry; apply Z.eqb_eq; lia).
  by rewrite orb_true_r.
Qed.

Lemma keyval_colon (k v : gostring) (c : ascii) :
  ":"%char ∉ k → keyval (k ++ bytes ":" ++ c :: v) = (k, v).
Proof.
  intros Hn. unfold keyval, bytes. simpl list_ascii_of_string.
  change ([":"%char] ++ c :: v) with (":"%char :: c :: v).
  rewrite Index_byte_first by done. rewrite len_app, !len_cons.
  pose proof (len_nonneg k). pose proof (len_nonneg v).
  replace (len k =? -1) with false by (symmetry; apply Z.eqb_neq; lia).
  replace (len k =? len k + (len v + 1 + 1) - 1) with false
    by (symmetry; apply Z.eqb_neq; lia).
  simpl orb. cbn iota. f_equal.
  - apply slice_to_app.
  - replace (len k + 2) with (len (k ++ [":"%char; c])).
    + change (":"%char :: c :: v) with ([":"%char; c] ++ v).
      rewrite app_assoc. apply slice_from_app.
    + rewrite len_app. done.
Qed.

(** The slice expressions of [keyval] stay within the line: the function
    never panics. *)
Lemma keyval_in_range (line : gostring) :
  let i := GoStrings.Index line (bytes ":") in
  i = -1 ∨ i = len line - 1 ∨ (0 ≤ i ∧ i + 2 ≤ len line).
Proof.
  simpl. destruct (decide (GoStrings.Index line [":"%char] = -1)) as [|Hne]; [by left|].
  right. apply Index_byte_found in Hne as (k & rest & -> & _ & ->).
  rewrite len_app, len_cons. pose proof (len_nonneg k). pose proof (len_nonneg rest).
  lia.
Qed.

(** [s[:i]], which panics unless [0 <= i <= len(s)]. *)
Definition sliceTo (s : gostring) (i : Z) : result gostring :=
  if (0 <=? i) && (i <=? len s) then Ok (slice_to s i)
  else Fail (Panicked (bytes "slice bounds out of range")).

(** [keyval], source lines 37-43, with the bounds checks of its two
    slice expressions written out. *)
Definition keyvalChecked (line : gostring) : result (gostring * gostring) :=
  let i := GoStrings.Index line (bytes ":") in
  if (i =? -1) || (i =? len line - 1) then Ok (line, [])
  else
    let* k := sliceTo line i in
    let* v := sliceFrom line (i + 2) in
    Ok (k, v).

(** X19: [keyval] never panics: on every line the two slice expressions
    [line[:i]] and [line[i+2:]] are within bounds (the guard sends the
    lines without a colon, or with the first colon as last byte, the
    other way), and give the pair that [keyval] returns. *)
Theorem keyval_never_panics (line : gostring) :
  keyvalChecked line = Ok (keyval line).
Proof.
  unfold keyvalChecked, keyval, sliceTo, sliceFrom.
  destruct (keyval_in_range line) as [Hi|[Hi|[H0 Hi]]]; cbv zeta in Hi.
  - rewrite Hi. done.
  - rewrite Hi. rewrite Z.eqb_refl. by rewrite orb_true_r.
  - cbv zeta in H0.
    destruct ((GoStrings.Index line (bytes ":") =? -1)
              || (GoStrings.Index line (bytes ":") =? len line - 1)); [done|].
    rewrite !andb_true_intro; [done| |]; split; apply Z.leb_le; lia.
Qed.

(** C6, as the code has it: the line is split at its first colon.  A line
    without a colon, or whose first colon is its last byte, is returned
    whole (colon included) with an empty value.  Otherwise the key is
    the text before the first colon and the value is the text that
    follows the byte after that colon; for a line [key: value] these are
    the two sides of its first ": ". *)
Theorem keyval_first_colon :
  (∀ line, ":"%char ∉ line → keyval line = (line, [])) ∧
  (∀ k, ":"%char ∉ k → keyval (k ++ bytes ":") = (k ++ bytes ":", [])) ∧
  (∀ k c v, ":"%char ∉ k → keyval (k ++ bytes ":" ++ c :: v) = (k, v)) ∧
  (∀ k v, ":"%char ∉ k → keyval (k ++ bytes ": " ++ v) = (k, v)).
Proof.
  split_and!.
  - apply keyval_no_colon.
  - apply keyval_colon_last.
  - intros. by apply keyval_colon.
  - intros k v Hk. by apply (keyval_colon k v " "%char).
Qed.

Lemma keyval_first_colon_witness :
  keyval (bytes "Artist: Sia") = (bytes "Artist", bytes "Sia").
Proof.
  destruct keyval_first_colon as (_ & _ & _ & Hkv).
  apply (Hkv (bytes "Artist") (bytes "Sia")). vm_compute.
  intros Hin. repeat (apply elem_of_cons in Hin as [Hin|Hin]; [discriminate Hin|]).
  by apply elem_of_nil in Hin.
Defined.

(** C6 as stated fails: the form [key:] keeps its colon, a colon followed
    by something else than a space still swallows that byte, and the
    split is at the first colon even when the first ": " comes later. *)
Lemma keyval_counterexample :
  keyval (bytes "key:") ≠ (bytes "key", bytes "") ∧
  keyval (bytes "key:value") ≠ (bytes "key", bytes "") ∧
  keyval (bytes "a:b: c") ≠ (bytes "a:b", bytes "c").
Proof. vm_compute. split_and!; discriminate. Qed.

(** ** The decoder [parseFzfOutput] *)

(** [p] follows the last instance of the delimiter in [... ++ delimiter
    ++ p]: no instance starts later, inside the delimiter or in [p]. *)
Definition lastInstance (p : gostring) : Prop :=
  ∀ n, (1 ≤ n)%nat → GoStrings.HasPrefix (drop n (delimiter ++ p)) delimiter = false.

(** [strings.Contains(s, delimiter)] *)
Definition hasDelimiter (s : gostring) : Prop :=
  ∃ v p, s = v ++ delimiter ++ p.

Lemma delimiter_nonempty : delimiter ≠ [].
Proof. done. Qed.

Lemma LastIndex_some (s sep : gostring) (n : nat) :
  sep ≠ [] → GoStrings.HasPrefix (drop n s) sep = true →
  0 ≤ GoStrings.LastIndex s sep.
Proof.
  intros Hsep. revert n. induction s as [|c s IH]; intros n Hp.
  - rewrite drop_nil in Hp. by destruct sep.
  - cbn [GoStrings.LastIndex]. destruct n as [|n]; simpl in Hp.
    + rewrite Hp. destruct (0 <=? GoStrings.LastIndex s sep) eqn:E; [|done].
      apply Z.leb_le in E. lia.
    + apply IH in Hp. apply Z.leb_le in Hp as Hp'. rewrite Hp'. lia.
Qed.

Lemma hasDelimiter_LastIndex (s : gostring) :
  hasDelimiter s ↔ 0 ≤ GoStrings.LastIndex s delimiter.
Proof.
  split.
  - intros (v & p & ->). apply (LastIndex_some _ _ (length v)); [done|].
    rewrite drop_app_length. apply HasPrefix_app.
  - intros Hi. apply LastIndex_found in Hi as (v & p & -> & _); [|done].
    by exists v, p.
Qed.

Lemma decodeLine_last (v p : gostring) :
  lastInstance p → decodeLine (v ++ delimiter ++ p) = Ok p.
Proof.
  intros Hlast. unfold decodeLine.
  rewrite LastIndex_last by done. unfold sliceFrom.
  rewrite <- len_app, app_assoc, (len_app (v ++ delimiter) p).
  pose proof (len_nonneg (v ++ delimiter)). pose proof (len_nonneg p).
  rewrite andb_true_intro; [|split; [apply Z.leb_le|apply Z.leb_le]; lia].
  by rewrite slice_from_app.
Qed.

(** Without the delimiter [LastIndex] is [-1], and the slice starts at
    byte 3 of the line, or panics when the line is shorter. *)
Lemma decodeLine_malformed (s : gostring) :
  ¬ hasDelimiter s →
  decodeLine s = if 3 <=? len s then Ok (slice_from s 3)
                 else Fail (Panicked (bytes "slice bounds out of range")).
Proof.
  intros Hno. unfold decodeLine.
  assert (GoStrings.LastIndex s delimiter = -1) as ->.
  { apply LastIndex_none; [done|]. intros n.
    destruct (GoStrings.HasPrefix (drop n s) delimiter) eqn:E; [|done].
    exfalso. apply Hno, hasDelimiter_LastIndex. by eapply LastIndex_some. }
  done.
Qed.

Lemma decodeLine_found (s : gostring) :
  hasDelimiter s →
  ∃ v p, s = v ++ delimiter ++ p ∧ lastInstance p ∧ decodeLine s = Ok p.
Proof.
  intros Hd%hasDelimiter_LastIndex.
  apply LastIndex_found in Hd as (v & p & -> & _ & Hlast); [|done].
  exists v, p. split_and!; [done|done|]. by apply decodeLine_last.
Qed.

Lemma mapR_Ok {A B} (f : A → result B) (xs : list A) (ys : list B) :
  mapR f xs = Ok ys →
  length ys = length xs ∧
  ∀ i x, xs !! i = Some x → ∃ y, f x = Ok y ∧ ys !! i = Some y.
Proof.
  revert ys. induction xs as [|x xs IH]; intros ys; simpl.
  - intros [= <-]. split; [done|]. by intros i x' ?.
  - destruct (f x) as [y|] eqn:Hy; [|done]. simpl.
    destruct (mapR f xs) as [ys'|] eqn:Hys; [|done]. simpl. intros [= <-].
    destruct (IH ys' eq_refl) as [Hlen Hlook]. split; [simpl; by rewrite Hlen|].
    intros [|i] x'; simpl; [intros [= <-]; by exists y | apply Hlook].
Qed.

Lemma mapR_total {A B} (f : A → result B) (xs : list A) :
  Forall (λ x, ∃ y, f x = Ok y) xs → ∃ ys, mapR f xs = Ok ys.
Proof.
  induction 1 as [|x xs [y Hy] _ [ys Hys]]; simpl; [by exists []|].
  rewrite Hy, Hys. by exists (y :: ys).
Qed.

(** The decoder in terms of the lines of the block. *)
Lemma parseFzfOutput_lines (lines : list gostring) :
  lines ≠ [] → Forall (λ l, newline ∉ l) lines →
  parseFzfOutput (GoStrings.Join lines [newline]) =
    if bool_decide (head lines = Some []) then Ok []
    else mapR decodeLine
           (if bool_decide (last lines = Some [])
            then slice_to lines (len lines - 1) else lines).
Proof.
  intros Hne Hall. unfold parseFzfOutput. rewrite Split_Join by done.
  replace (len lines =? 0) with false; [done|].
  symmetry. apply Z.eqb_neq. unfold len. destruct lines; [done|simpl; lia].
Qed.

Lemma parseFzfOutput_terminated (lines : list gostring) :
  lines ≠ [] → Forall (λ l, newline ∉ l) lines → head lines ≠ Some [] →
  parseFzfOutput (GoStrings.Join lines [newline] ++ [newline]) =
    mapR decodeLine lines.
Proof.
  intros Hne Hall Hhd. rewrite <- Join_snoc_empty by done.
  rewrite parseFzfOutput_lines.
  - rewrite bool_decide_eq_false_2 by (by destruct lines).
    rewrite last_snoc, bool_decide_eq_true_2 by done.
    unfold slice_to. rewrite len_app. change (len [[]]) with 1.
    replace (len lines + 1 - 1) with (len lines) by lia.
    unfold len. rewrite Nat2Z.id. by rewrite take_app_length.
  - by destruct lines.
  - apply Forall_app. split; [done|]. repeat constructor. apply not_elem_of_nil.
Qed.

Lemma parseFzfOutput_unterminated (lines : list gostring) :
  lines ≠ [] → Forall (λ l, newline ∉ l) lines → head lines ≠ Some [] →
  last lines ≠ Some [] →
  parseFzfOutput (GoStrings.Join lines [newline]) = mapR decodeLine lines.
Proof.
  intros Hne Hall Hhd Hlast. rewrite parseFzfOutput_lines by done.
  by rewrite !bool_decide_eq_false_2.
Qed.


(** Closed side conditions of the examples: decided by evaluation. *)
Ltac by_evaluation :=
  first [ vm_compute; first [ reflexivity | discriminate | exact I
                            | intros ?; discriminate ]
        | apply (bool_decide_unpack _); vm_compute; exact I
        | repeat constructor; apply (bool_decide_unpack _); vm_compute; exact I
        | done ].


(** Every block is the join of its lines, with or without a final
    newline: the two shapes the next theorem speaks of (and the empty
    block, the join of one empty line). *)
Lemma block_lines (block : gostring) :
  ∃ lines, lines ≠ [] ∧ Forall (λ l, newline ∉ l) lines
    ∧ (block = GoStrings.Join lines [newline] ++ [newline] ∨
       (block = GoStrings.Join lines [newline]
        ∧ (last lines ≠ Some [] ∨ lines = [[]]))).
Proof.
  destruct (Join_Split block newline) as [Hjoin Hall].
  pose proof (Split_nonempty block newline) as Hne.
  destruct (GoStrings.Split block newline) as [|l ls _] using rev_ind; [done|].
  destruct (decide (l = [])) as [->|Hl].
  - destruct ls as [|l' ls].
    + exists [[]]. split_and!; [done|done|]. right. split; [done|by right].
    + exists (l' :: ls). apply Forall_app in Hall as [Hall _].
      split_and!; [done|done|]. left. by rewrite <- Join_snoc_empty.
  - exists (ls ++ [l]). split_and!; [done|done|]. right. split; [done|].
    left. rewrite last_snoc. congruence.
Qed.

(** C7, as the code has it: no line is ever skipped on its own.  Take
    the block as its lines (those before the final newline when it ends
    with one).  If the first line is empty the decoder returns no entry
    at all, whatever follows.  Otherwise, when the decoder returns, it
    returns exactly one entry per line, and the entry of a line that
    contains the delimiter is the text after its last instance; it does
    return when every line contains the delimiter. *)
Theorem parseFzfOutput_no_skip (lines : list gostring) (block : gostring) :
  lines ≠ [] → Forall (λ l, newline ∉ l) lines →
  block = GoStrings.Join lines [newline] ++ [newline] ∨
    (block = GoStrings.Join lines [newline]
     ∧ (last lines ≠ Some [] ∨ lines = [[]])) →
  (head lines = Some [] → parseFzfOutput block = Ok []) ∧
  (head lines ≠ Some [] →
     (∀ songs, parseFzfOutput block = Ok songs →
        length songs = length lines ∧
        ∀ i v p, lines !! i = Some (v ++ delimiter ++ p) → lastInstance p →
                 songs !! i = Some p) ∧
     (Forall hasDelimiter lines → ∃ songs, parseFzfOutput block = Ok songs)).
Proof.
  intros Hne Hall Hblock. split.
  - intros Hhd. destruct Hblock as [->|[-> _]].
    + rewrite <- Join_snoc_empty by done. rewrite parseFzfOutput_lines.
      * rewrite bool_decide_eq_true_2; [done|]. by destruct lines.
      * by destruct lines.
      * apply Forall_app. split; [done|]. repeat constructor.
        apply not_elem_of_nil.
    + rewrite parseFzfOutput_lines by done. by rewrite bool_decide_eq_true_2.
  - intros Hhd.
    assert (parseFzfOutput block = mapR decodeLine lines) as ->.
    { destruct Hblock as [->|[-> [Hlast| ->]]].
      - by apply parseFzfOutput_terminated.
      - by apply parseFzfOutput_unterminated.
      - done. }
    split.
    + intros songs [Hlen Hlook]%mapR_Ok. split; [done|].
      intros i v p Hi Hlast. destruct (Hlook _ _ Hi) as (y & Hy & ->).
      rewrite decodeLine_last in Hy by done. by injection Hy as ->.
    + intros Hdel. apply mapR_total. eapply Forall_impl; [exact Hdel|].
      intros s (v & p & _ & _ & Hs)%decodeLine_found. by exists p.
Qed.

Lemma lastInstance_intro (p : gostring) :
  GoStrings.HasPrefix p (bytes "/") = false →
  GoStrings.Index p delimiter = -1 →
  lastInstance p.
Proof.
  intros Hslash Hno n Hn.
  destruct n as [|[|[|[|n]]]]; [lia| | | |].
  1-3: destruct p as [|c p]; [done|]; simpl in *;
       rewrite andb_true_r in Hslash; by rewrite Hslash.
  change (drop (S (S (S (S n)))) (delimiter ++ p)) with (drop n p).
  by apply Index_none.
Qed.

Lemma parseFzfOutput_no_skip_witness :
  ∃ songs,
    parseFzfOutput (bytes "Sia - Chandelier////Music/chandelier.mp3" ++ [newline]
                    ++ bytes "Air////Air/La femme d'argent.flac" ++ [newline]) = Ok songs
    ∧ length songs = 2%nat
    ∧ songs !! 1%nat = Some (bytes "Air/La femme d'argent.flac").
Proof.
  destruct (parseFzfOutput_no_skip
              [bytes "Sia - Chandelier////Music/chandelier.mp3";
               bytes "Air////Air/La femme d'argent.flac"]
              (bytes "Sia - Chandelier////Music/chandelier.mp3" ++ [newline]
               ++ bytes "Air////Air/La femme d'argent.flac" ++ [newline]))
    as [_ Hlines]; [by_evaluation.. | left; reflexivity |].
  destruct Hlines as [Hok Htotal]; [by_evaluation|].
  destruct Htotal as [songs Hs].
  { repeat constructor.
    - exists (bytes "Sia - Chandelier"), (bytes "Music/chandelier.mp3"). reflexivity.
    - exists (bytes "Air"), (bytes "Air/La femme d'argent.flac"). reflexivity. }
  exists songs. destruct (Hok songs Hs) as [Hlen Hlook].
  split; [exact Hs|]. clear Hs Hok. split; [exact Hlen|].
  apply (Hlook 1%nat (bytes "Air")); [reflexivity|].
  apply lastInstance_intro; vm_compute; reflexivity.
Defined.

(** C7 as stated fails: a line without the delimiter is not skipped.  It
    yields an entry of its own (the line less its first three bytes), and
    a line of fewer than three bytes stops the decoder with a panic, the
    well-formed lines after it undecoded. *)
Lemma parseFzfOutput_counterexample :
  parseFzfOutput (bytes "abcdef" ++ [newline] ++ bytes "Sia////a.mp3" ++ [newline])
    = Ok [bytes "def"; bytes "a.mp3"] ∧
  parseFzfOutput (bytes "abcdef" ++ [newline] ++ bytes "Sia////a.mp3" ++ [newline])
    ≠ Ok [bytes "a.mp3"] ∧
  parseFzfOutput (bytes "ab" ++ [newline] ++ bytes "Sia////a.mp3" ++ [newline])
    = Fail (Panicked (bytes "slice bounds out of range")).
Proof. vm_compute. split_and!; [done | discriminate | done]. Qed.

(** ** The display line: [format] and back *)

Section Roundtrip.
Context `{Unicode}.

Lemma format_line (width : Z) (t : Track) (line : gostring) :
  format width t = Ok line →
  ∃ visible, line = visible ++ delimiter ++ Path t.
Proof.
  unfold format. intros Hf.
  destruct (truncateAndPad _ _ _) as [str|] eqn:E; [|done].
  simpl in Hf. injection Hf as <-.
  exists (str ++ Time t). by rewrite <- app_assoc.
Qed.

Lemma format_returns (width : Z) (t : Track) :
  len (Time t) ≤ contentLen width → ∃ line, format width t = Ok line.
Proof.
  intros Hlen. unfold format, truncateAndPad.
  destruct (contentLen width - len (Time t) <? 0) eqn:E.
  - apply Z.ltb_lt in E. lia.
  - simpl. eauto.
Qed.

(** C1, as the code has it: for a track whose path does not begin with
    a slash and does not contain the delimiter, the decoder's slice of
    the encoded line is the path, whatever the other fields hold (the
    visible text may itself contain the delimiter: the split is at the
    last instance); and the encoded line, when it holds no newline, is
    decoded as a block to that one path, with or without a final
    newline.  The encoder returns whenever the duration text is no
    longer than the content width. *)
Theorem format_decode_roundtrip (width : Z) (t : Track) :
  GoStrings.HasPrefix (Path t) (bytes "/") = false →
  GoStrings.Index (Path t) delimiter = -1 →
  (len (Time t) ≤ contentLen width → ∃ line, format width t = Ok line) ∧
  (∀ line, format width t = Ok line →
     decodeLine line = Ok (Path t) ∧
     (newline ∉ line →
        parseFzfOutput (line ++ [newline]) = Ok [Path t] ∧
        parseFzfOutput line = Ok [Path t])).
Proof.
  intros Hslash Hdelim. split; [apply format_returns|].
  intros line (visible & ->)%format_line.
  pose proof (lastInstance_intro _ Hslash Hdelim) as Hlast.
  set (line := visible ++ delimiter ++ Path t).
  assert (decodeLine line = Ok (Path t)) as Hline by by apply decodeLine_last.
  split; [done|]. intros Hnl.
  assert (line ≠ []) as Hne.
  { subst line. intros [_ Habs]%app_eq_nil. discriminate Habs. }
  assert (Forall (λ l, newline ∉ l) [line]) as Hall by by repeat constructor.
  assert (mapR decodeLine [line] = Ok [Path t]) as Hmap
    by (simpl; by rewrite Hline).
  split.
  - change (line ++ [newline]) with (GoStrings.Join [line] [newline] ++ [newline]).
    rewrite parseFzfOutput_terminated; [done|done|done|].
    simpl. congruence.
  - change line with (GoStrings.Join [line] [newline]) at 1.
    rewrite parseFzfOutput_unterminated; [done|done|done| |].
    + simpl. congruence.
    + simpl. congruence.
Qed.

End Roundtrip.

Definition chandelier : Track :=
  {| Album := bytes "1000 Forms of Fear //// Deluxe"; Artist := bytes "Sia";
     Date := bytes "2014"; Filename := bytes "chandelier!.mp3"; Genre := [];
     Path := bytes "Music/Sia/chandelier!.mp3";
     Time := bytes "(03:35)"; Title := bytes "Chandelier" |}.

Lemma format_decode_roundtrip_witness :
  ∃ line, format 80 chandelier = Ok line ∧
          parseFzfOutput (line ++ [newline]) = Ok [Path chandelier].
Proof.
  destruct (format_decode_roundtrip 80 chandelier) as [_ Hdec];
    [by vm_compute | by vm_compute |].
  eexists. split; [by vm_compute|].
  refine (proj1 (proj2 (Hdec _ _) _)).
  - by vm_compute.
  - apply (bool_decide_unpack _). by vm_compute.
Defined.

(** C1 as stated fails for a path that begins with a slash or contains
    the delimiter: the last instance of the delimiter in the encoded line
    then lies further right than the one the encoder wrote. *)
Lemma format_decode_counterexample :
  let rooted := {| Album := []; Artist := bytes "Sia"; Date := []; Filename := bytes "a.mp3";
                   Genre := []; Path := bytes "/music/a.mp3"; Time := [];
                   Title := bytes "Chandelier" |} in
  let slashes := {| Album := []; Artist := bytes "Sia"; Date := []; Filename := bytes "a.mp3";
                    Genre := []; Path := bytes "music////a.mp3"; Time := [];
                    Title := bytes "Chandelier" |} in
  (let* line := format 80 rooted in decodeLine line) = Ok (bytes "music/a.mp3") ∧
  (let* line := format 80 rooted in decodeLine line) ≠ Ok (Path rooted) ∧
  (let* line := format 80 slashes in decodeLine line) = Ok (bytes "a.mp3") ∧
  (let* line := format 80 slashes in decodeLine line) ≠ Ok (Path slashes).
Proof. vm_compute. split_and!; [done | discriminate | done | discriminate]. Qed.

(** ** The database parser [parse] *)

Definition key (line : gostring) : gostring := fst (keyval line).

(** The number of lines of [lines] whose key is [k]. *)
Definition directives (k : string) (lines : list gostring) : nat :=
  length (filter (λ l, key l = bytes k) lines).

Lemma foldR_app {A B} (f : B → A → result B) (b : B) (xs ys : list A) :
  foldR f b (xs ++ ys) = let* b' := foldR f b xs in foldR f b' ys.
Proof.
  revert b. induction xs as [|x xs IH]; intros b; simpl; [done|].
  destruct (f b x); simpl; [apply IH | done].
Qed.

Lemma directives_cons (k : string) (l : gostring) (lines : list gostring) :
  directives k (l :: lines) =
    ((if bool_decide (key l = bytes k) then 1 else 0) + directives k lines)%nat.
Proof.
  unfold directives. rewrite filter_cons.
  case_decide as Hk.
  - by rewrite bool_decide_eq_true_2.
  - by rewrite bool_decide_eq_false_2.
Qed.

Lemma directives_app (k : string) (ls ls' : list gostring) :
  directives k (ls ++ ls') = (directives k ls + directives k ls')%nat.
Proof. unfold directives. by rewrite filter_app, length_app. Qed.

(** What one line does to the parser, by its key. *)
Lemma parseLine_directory (st : parser) (line : gostring) :
  key line = bytes "directory" →
  parseLine st line =
    Ok {| tracks := tracks st; track := track st;
          dirs := dirs st ++ [snd (keyval line)] |}.
Proof.
  unfold key, parseLine. destruct (keyval line) as [k v]. simpl. by intros ->.
Qed.

Lemma parseLine_end_empty (st : parser) (line : gostring) :
  key line = bytes "end" → dirs st = [] →
  parseLine st line = Fail (Exited 1 (Some corrupted)).
Proof.
  unfold key, parseLine. destruct (keyval line) as [k v]. simpl.
  intros -> ->. done.
Qed.

Lemma parseLine_end (st : parser) (line : gostring) (ds : list gostring) (d : gostring) :
  key line = bytes "end" → dirs st = ds ++ [d] →
  parseLine st line = Ok {| tracks := tracks st; track := track st; dirs := ds |}.
Proof.
  unfold key, parseLine. destruct (keyval line) as [k v]. simpl.
  intros -> ->. rewrite bool_decide_eq_false_2 by done.
  rewrite bool_decide_eq_true_2 by done.
  rewrite len_app. change (len [d]) with 1. pose proof (len_nonneg ds).
  replace (len ds + 1 <=? 0) with false by (symmetry; apply Z.leb_gt; lia).
  simpl. do 2 f_equal.
  replace (len ds + 1 - 1) with (len ds) by lia. apply slice_to_app.
Qed.

Lemma parseLine_song_begin (st : parser) (line : gostring) :
  key line = bytes "song_begin" →
  parseLine st line =
    Ok {| tracks := tracks st;
          track := Track_begin (track st) (snd (keyval line))
                     (Filepath.Join (dirs st ++ [snd (keyval line)]));
          dirs := dirs st |}.
Proof.
  unfold key, parseLine. destruct (keyval line) as [k v]. simpl. by intros ->.
Qed.

Lemma parseLine_song_end (st : parser) (line : gostring) :
  key line = bytes "song_end" →
  parseLine st line =
    Ok {| tracks := tracks st ++ [track st]; track := newTrack; dirs := dirs st |}.
Proof.
  unfold key, parseLine. destruct (keyval line) as [k v]. simpl. by intros ->.
Qed.

Lemma Track_Set_Path (t : Track) (k v : gostring) :
  Path (Track_Set t k v) = Path t ∧ Filename (Track_Set t k v) = Filename t.
Proof. unfold Track_Set. by repeat case_bool_decide. Qed.

(** The lines that leave the tracks and the stack alone: tags and
    unknown keys. *)
Definition structural (line : gostring) : bool :=
  bool_decide (key line ∈ [bytes "directory"; bytes "end"; bytes "song_begin";
                           bytes "song_end"]).

Lemma parseLine_other (st : parser) (line : gostring) :
  structural line = false →
  ∃ tr, parseLine st line = Ok {| tracks := tracks st; track := tr; dirs := dirs st |}
        ∧ Path tr = Path (track st).
Proof.
  unfold structural, key, parseLine. destruct (keyval line) as [k v]. simpl.
  intros Hk%bool_decide_eq_false.
  rewrite !elem_of_cons, elem_of_nil in Hk.
  rewrite !bool_decide_eq_false_2 by naive_solver.
  destruct (isTag k).
  - eexists. split; [done|]. apply Track_Set_Path.
  - exists (track st). by destruct st.
Qed.

Lemma parseLine_cases (line : gostring) :
  key line = bytes "directory" ∨ key line = bytes "end" ∨
  key line = bytes "song_begin" ∨ key line = bytes "song_end" ∨
  structural line = false.
Proof.
  unfold structural. case_bool_decide as Hk; [|naive_solver].
  rewrite !elem_of_cons, elem_of_nil in Hk. naive_solver.
Qed.

(** The only failure of the loop is the underflow, and the depth of the
    stack is the number of [directory] lines less the number of [end]
    lines read. *)
Ltac closed_key :=
  vm_compute; first [ reflexivity | discriminate | intros ?; discriminate ].

Ltac decide_keys :=
  repeat first [ rewrite bool_decide_eq_true_2 by closed_key
               | rewrite bool_decide_eq_false_2 by closed_key ].

Lemma parseLine_depth (st : parser) (line : gostring) :
  match parseLine st line with
  | Ok st' =>
      len (dirs st') + Z.of_nat (directives "end" [line])
        = len (dirs st) + Z.of_nat (directives "directory" [line])
  | Fail f => f = Exited 1 (Some corrupted)
  end.
Proof.
  rewrite !directives_cons. unfold directives. simpl.
  destruct (parseLine_cases line) as [Hk|[Hk|[Hk|[Hk|Hk]]]].
  - rewrite parseLine_directory by done. simpl. rewrite Hk, len_app.
    decide_keys. change (len [(keyval line).2]) with 1. lia.
  - destruct (dirs st) as [|d ds _] eqn:Hd using rev_ind.
    + by rewrite parseLine_end_empty.
    + rewrite (parseLine_end st line ds d) by done. simpl. rewrite Hk, len_app.
      decide_keys. change (len [d]) with 1. lia.
  - rewrite parseLine_song_begin by done. simpl. rewrite Hk.
    decide_keys. lia.
  - rewrite parseLine_song_end by done. simpl. rewrite Hk.
    decide_keys. lia.
  - destruct (parseLine_other st line Hk) as (tr & -> & _). simpl.
    apply bool_decide_eq_false in Hk. rewrite !elem_of_cons in Hk.
    rewrite !bool_decide_eq_false_2 by naive_solver. lia.
Qed.

Lemma foldR_parseLine_depth (lines : list gostring) (st : parser) :
  match foldR parseLine st lines with
  | Ok st' =>
      len (dirs st') + Z.of_nat (directives "end" lines)
        = len (dirs st) + Z.of_nat (directives "directory" lines)
  | Fail f => f = Exited 1 (Some corrupted)
  end.
Proof.
  revert st. induction lines as [|l lines IH]; intros st; simpl; [done|].
  pose proof (parseLine_depth st l) as Hl.
  destruct (parseLine st l) as [st1|f]; simpl; [|done].
  specialize (IH st1). destruct (foldR parseLine st1 lines); [|done].
  rewrite (directives_cons "end"), (directives_cons "directory").
  rewrite !directives_cons in Hl.
  change (directives "end" []) with 0%nat in Hl.
  change (directives "directory" []) with 0%nat in Hl.
  repeat case_bool_decide; lia.
Qed.

(** C3: an [end] line read when as many [end] lines as [directory] lines
    went before it (the stack is empty, unless an earlier [end] already
    found it empty) makes [parse] exit with status 1 and the
    corrupted-database message, whatever lines follow. *)
Theorem parse_underflow_fatal
    (before after : list gostring) (line : gostring) (scanErr : option error) :
  key line = bytes "end" →
  (directives "directory" before ≤ directives "end" before)%nat →
  parse (before ++ line :: after) scanErr = Fail (Exited 1 (Some corrupted)).
Proof.
  intros Hk Hdepth. unfold parse. rewrite foldR_app.
  pose proof (foldR_parseLine_depth before
                {| tracks := []; track := newTrack; dirs := [] |}) as Hb.
  destruct (foldR parseLine _ before) as [st|f]; [|by subst f].
  cbn [bind foldR]. cbn [dirs] in Hb.
  assert (dirs st = []) as Hd.
  { change (len (@nil gostring)) with 0 in Hb.
    destruct (dirs st) as [|d ds]; [done|]. rewrite len_cons in Hb.
    pose proof (len_nonneg ds). lia. }
  by rewrite parseLine_end_empty.
Qed.

Lemma parse_underflow_fatal_witness :
  parse ([bytes "directory: Music"; bytes "end: Music"] ++ bytes "end: Music"
         :: [bytes "song_begin: a.mp3"; bytes "song_end"]) None
    = Fail (Exited 1 (Some corrupted)).
Proof. apply parse_underflow_fatal; by_evaluation. Defined.

(** *** Valid databases

    A database is a sequence of songs, directories and other lines; a
    directory holds a database of its own between its [directory] line
    and its [end] line.  A song is its [song_begin] line, the lines of
    its tags and [song_end]. *)
Inductive db :=
  | DbEnd
  | DbSong (filename : gostring) (body : list gostring) (rest : db)
  | DbDir (name : gostring) (inner : db) (endLine : gostring) (rest : db)
  | DbOther (line : gostring) (rest : db).

Fixpoint render (d : db) : list gostring :=
  match d with
  | DbEnd => []
  | DbSong f body rest =>
      (bytes "song_begin: " ++ f) :: body ++ bytes "song_end" :: render rest
  | DbDir n inner e rest =>
      (bytes "directory: " ++ n) :: render inner ++ e :: render rest
  | DbOther l rest => l :: render rest
  end.

(** A name of a file or a directory: not empty, without a separator, and
    neither [.] nor [..]. *)
Definition segment (s : gostring) : Prop :=
  s ≠ [] ∧ Filepath.Separator ∉ s ∧ s ≠ bytes "." ∧ s ≠ bytes "..".

Fixpoint valid (d : db) : Prop :=
  match d with
  | DbEnd => True
  | DbSong f body rest =>
      segment f ∧ Forall (λ l, structural l = false) body ∧ valid rest
  | DbDir n inner e rest =>
      segment n ∧ key e = bytes "end" ∧ valid inner ∧ valid rest
  | DbOther l rest => structural l = false ∧ valid rest
  end.

(** The paths of the songs of a database read with the directories
    [stack] open: the names joined by the separator, in stack order. *)
Fixpoint paths (stack : list gostring) (d : db) : list gostring :=
  match d with
  | DbEnd => []
  | DbSong f _ rest =>
      GoStrings.Join (stack ++ [f]) [Filepath.Separator] :: paths stack rest
  | DbDir n inner _ rest => paths (stack ++ [n]) inner ++ paths stack rest
  | DbOther _ rest => paths stack rest
  end.

(** [filepath.Join] on names is plain joining: [Clean] finds nothing to
    remove. *)
Lemma cleanElem_segments (segs : list gostring) (out : Filepath.lazybuf) :
  Forall segment segs →
  foldl Filepath.cleanElem out segs =
    {| Filepath.rooted := Filepath.rooted out;
       Filepath.dotdots := Filepath.dotdots out;
       Filepath.elems := rev segs ++ Filepath.elems out |}.
Proof.
  intros Hall. revert out.
  induction Hall as [|s segs (Hne & _ & Hdot & Hdots) _ IH]; intros out.
  - by destruct out.
  - simpl. rewrite <- app_assoc. simpl. unfold Filepath.cleanElem at 2.
    rewrite !bool_decide_eq_false_2 by done. by rewrite IH.
Qed.

Lemma Join_nonempty (segs : list gostring) (sep : gostring) :
  segs ≠ [] → Forall (λ s, s ≠ []) segs → GoStrings.Join segs sep ≠ [].
Proof.
  destruct segs as [|s segs]; [done|]. intros _ [Hs _]%Forall_cons.
  destruct segs; simpl; [done|]. by destruct s.
Qed.

Lemma Join_head (segs : list gostring) (sep : gostring) (s : gostring) (c : ascii) :
  head segs = Some (c :: s) → head (GoStrings.Join segs sep) = Some c.
Proof. destruct segs as [|? [|]]; simpl; by intros [= ->]. Qed.

Lemma filepath_Join_segments (segs : list gostring) :
  segs ≠ [] → Forall segment segs →
  Filepath.Join segs = GoStrings.Join segs [Filepath.Separator].
Proof.
  intros Hne Hall. destruct segs as [|s segs]; [done|].
  pose proof Hall as [(Hs & Hsep & _) _]%Forall_cons.
  cbn [Filepath.Join]. rewrite bool_decide_eq_false_2 by done.
  destruct s as [|c s]; [done|].
  pose proof (Join_head ((c :: s) :: segs) [Filepath.Separator] s c eq_refl) as Hhd.
  unfold Filepath.Clean.
  destruct (GoStrings.Join ((c :: s) :: segs) [Filepath.Separator])
    as [|c' path] eqn:Hj; [done|].
  injection Hhd as ->. rewrite <- Hj.
  rewrite Split_Join; [|done|by eapply Forall_impl; [exact Hall|]; intros ? (_ & ? & _)].
  rewrite cleanElem_segments by done. unfold Filepath.bufString.
  cbn [Filepath.rooted Filepath.dotdots Filepath.elems replicate app].
  rewrite app_nil_r, rev_involutive.
  rewrite bool_decide_eq_false_2.
  - rewrite bool_decide_eq_false_2; [done|]. by rewrite Hj.
  - intros ->. apply Hsep. by left.
Qed.

(** The lines of a song's body change neither the tracks nor the stack
    nor the path of the track being built. *)
Lemma foldR_parseLine_body (body more : list gostring) (st : parser) :
  Forall (λ l, structural l = false) body →
  ∃ tr, foldR parseLine st (body ++ more) =
          foldR parseLine {| tracks := tracks st; track := tr; dirs := dirs st |} more
        ∧ Path tr = Path (track st).
Proof.
  intros Hall. revert st. induction Hall as [|l body Hl _ IH]; intros st.
  - exists (track st). by destruct st.
  - simpl. destruct (parseLine_other st l Hl) as (tr & -> & Htr). simpl.
    destruct (IH {| tracks := tracks st; track := tr; dirs := dirs st |})
      as (tr' & -> & Htr'). exists tr'. split; [done|]. simpl in Htr'. congruence.
Qed.

Lemma key_colon (k : string) (v : gostring) :
  ":"%char ∉ bytes k → key (bytes k ++ bytes ": " ++ v) = bytes k
                       ∧ snd (keyval (bytes k ++ bytes ": " ++ v)) = v.
Proof.
  intros Hk. unfold key.
  destruct keyval_first_colon as (_ & _ & _ & Hkv). by rewrite Hkv.
Qed.

Lemma key_song_begin (f : gostring) :
  key (bytes "song_begin: " ++ f) = bytes "song_begin"
  ∧ snd (keyval (bytes "song_begin: " ++ f)) = f.
Proof. apply (key_colon "song_begin" f). by_evaluation. Qed.

Lemma key_directory (n : gostring) :
  key (bytes "directory: " ++ n) = bytes "directory"
  ∧ snd (keyval (bytes "directory: " ++ n)) = n.
Proof. apply (key_colon "directory" n). by_evaluation. Qed.

Lemma directives_structural (k : string) (body : list gostring) :
  bytes k ∈ [bytes "directory"; bytes "end"; bytes "song_begin"; bytes "song_end"] →
  Forall (λ l, structural l = false) body → directives k body = 0%nat.
Proof.
  intros Hk. induction 1 as [|l body Hl _ IH]; [done|].
  rewrite directives_cons, IH. rewrite bool_decide_eq_false_2; [done|].
  intros Heq. apply bool_decide_eq_false in Hl. apply Hl. by rewrite Heq.
Qed.

(** Reading the lines of a valid database adds its songs to the tracks
    and leaves the stack as it was. *)
Lemma foldR_parseLine_render (d : db) :
  valid d → ∀ (st : parser) (more : list gostring),
  Forall segment (dirs st) →
  ∃ ts tr,
    foldR parseLine st (render d ++ more) =
      foldR parseLine {| tracks := tracks st ++ ts; track := tr; dirs := dirs st |} more
    ∧ Path <$> ts = paths (dirs st) d
    ∧ length ts = directives "song_end" (render d).
Proof.
  induction d as [|f body rest IH|n inner IHinner e rest IHrest|l rest IH];
    intros Hvalid st more Hstack.
  - exists [], (track st). rewrite app_nil_r. by destruct st.
  - destruct Hvalid as (Hf & Hbody & Hrest). cbn [render app foldR].
    destruct (key_song_begin f) as [Hk Hv].
    rewrite parseLine_song_begin by done. rewrite Hv. cbn [bind].
    rewrite <- app_assoc.
    edestruct (foldR_parseLine_body body) as (tr & -> & Htr); [done|].
    cbn [app foldR]. rewrite parseLine_song_end by done. cbn [bind tracks track dirs].
    edestruct (IH Hrest) as (ts & tr' & -> & Hpaths & Hlen); [done|].
    exists (tr :: ts), tr'. cbn [tracks dirs] in *. split_and!.
    + by rewrite <- app_assoc.
    + cbn [fmap list_fmap paths]. rewrite Hpaths. f_equal.
      rewrite Htr. simpl. apply filepath_Join_segments.
      * by destruct (dirs st).
      * apply Forall_app. split; [done|]. by apply Forall_singleton.
    + rewrite directives_cons, directives_app, directives_cons, Hk.
      rewrite (directives_structural "song_end" body); [|by_evaluation|done].
      decide_keys. cbn [length]. lia.
  - destruct Hvalid as (Hn & He & Hinner & Hrest). cbn [render app foldR].
    destruct (key_directory n) as [Hk Hv].
    rewrite parseLine_directory by done. rewrite Hv. cbn [bind].
    rewrite <- app_assoc.
    edestruct (IHinner Hinner) as (ts & tr & -> & Hpaths & Hlen).
    { cbn [dirs]. apply Forall_app. split; [done|]. by apply Forall_singleton. }
    cbn [app foldR tracks dirs] in *.
    erewrite parseLine_end by done. cbn [bind tracks track dirs].
    edestruct (IHrest Hrest) as (ts' & tr' & -> & Hpaths' & Hlen'); [done|].
    exists (ts ++ ts'), tr'. cbn [tracks dirs] in *. split_and!.
    + by rewrite <- app_assoc.
    + cbn [paths]. by rewrite fmap_app, Hpaths, Hpaths'.
    + rewrite length_app, Hlen, Hlen'.
      rewrite directives_cons, directives_app, directives_cons, Hk, He.
      decide_keys. lia.
  - destruct Hvalid as (Hl & Hrest). cbn [render app foldR].
    destruct (parseLine_other st l Hl) as (tr & -> & _). cbn [bind].
    edestruct (IH Hrest) as (ts & tr' & -> & Hpaths & Hlen); [done|].
    exists ts, tr'. cbn [tracks dirs paths] in *. split_and!; [done|done|].
    rewrite Hlen, directives_cons. rewrite bool_decide_eq_false_2; [done|].
    intros Heq. apply bool_decide_eq_false in Hl. apply Hl. rewrite Heq.
    by_evaluation.
Qed.

(** C2: for a valid database (well nested, with names for its files and
    directories) read without a scanner error, [parse] returns one track
    per [song_end] line, in order, and the path of each is the names of
    the directories open at its [song_begin], then its file name, joined
    by the separator. *)
Theorem parse_valid (d : db) :
  valid d →
  ∃ tracks,
    parse (render d) None = Ok tracks
    ∧ length tracks = directives "song_end" (render d)
    ∧ Path <$> tracks = paths [] d.
Proof.
  intros Hvalid. unfold parse.
  destruct (foldR_parseLine_render d Hvalid
              {| tracks := []; track := newTrack; dirs := [] |} [])
    as (ts & tr & Hfold & Hpaths & Hlen); [done|].
  rewrite app_nil_r in Hfold. rewrite Hfold. simpl. by exists ts.
Qed.

(** The database of one directory [Music] with one song. *)
Definition musicDb : db :=
  DbOther (bytes "info_begin")
    (DbOther (bytes "info_end")
       (DbDir (bytes "Music")
          (DbOther (bytes "begin: Music")
             (DbSong (bytes "chandelier.mp3")
                [bytes "Time: 215"; bytes "Artist: Sia"; bytes "Title: Chandelier";
                 bytes "mtime: 1400000000"]
                DbEnd))
          (bytes "end: Music") DbEnd)).

Lemma segment_intro (s : gostring) :
  bool_decide (s ≠ [] ∧ Filepath.Separator ∉ s ∧ s ≠ bytes "." ∧ s ≠ bytes "..") = true →
  segment s.
Proof. apply bool_decide_eq_true_1. Qed.

Lemma parse_valid_witness :
  ∃ tracks, parse (render musicDb) None = Ok tracks
            ∧ length tracks = 1%nat
            ∧ Path <$> tracks = [bytes "Music/chandelier.mp3"].
Proof.
  apply (parse_valid musicDb). unfold musicDb. cbn [valid].
  split_and!; try (apply segment_intro); by_evaluation.
Defined.

Example parse_musicDb :
  parse (render musicDb) None =
    Ok [ {| Album := []; Artist := bytes "Sia"; Date := [];
            Filename := bytes "chandelier.mp3"; Genre := [];
            Path := bytes "Music/chandelier.mp3"; Time := bytes "(03:35)";
            Title := bytes "Chandelier" |} ].
Proof. by vm_compute. Qed.

(** ** Grouping by artist *)

(** The bucket of an artist: its tracks, in the order of the input. *)
Definition bucket (tracks : list Track) (a : gostring) : list Track :=
  filter (λ t, Artist t = a) tracks.

Lemma bucket_snoc (tracks : list Track) (t : Track) (a : gostring) :
  bucket (tracks ++ [t]) a =
    if decide (Artist t = a) then bucket tracks a ++ [t] else bucket tracks a.
Proof.
  unfold bucket. rewrite filter_app, filter_cons, filter_nil.
  case_decide; [done|]. by rewrite app_nil_r.
Qed.

Lemma bucket_cons_ne (tracks : list Track) (t : Track) (a : gostring) :
  Artist t ≠ a → bucket (t :: tracks) a = bucket tracks a.
Proof. intros Hne. unfold bucket. by rewrite filter_cons_False. Qed.

Lemma bucket_artist (tracks : list Track) (a : gostring) (t : Track) :
  t ∈ bucket tracks a → Artist t = a.
Proof. unfold bucket. by intros [? _]%list_elem_of_filter. Qed.

(** The map built by the first loop holds, for each artist that occurs,
    its bucket. *)
Lemma artistsOf_lookup (tracks : list Track) (a : gostring) :
  artistsOf tracks !! a =
    if decide (bucket tracks a = []) then None else Some (bucket tracks a).
Proof.
  unfold artistsOf. induction tracks as [|t tracks IH] using rev_ind.
  - simpl. by rewrite lookup_empty.
  - rewrite foldl_app. simpl. rewrite bucket_snoc.
    destruct (decide (Artist t = a)) as [->|Hne].
    + rewrite lookup_insert_eq, IH.
      destruct (decide (bucket tracks a = [])) as [Hb|Hb].
      * rewrite Hb. done.
      * simpl. case_decide as Habs; [|done].
        by apply app_eq_nil in Habs as [_ ?].
    + by rewrite lookup_insert_ne.
Qed.

Lemma artistsOf_dom (tracks : list Track) (a : gostring) :
  a ∈ dom (artistsOf tracks) ↔ ∃ t, t ∈ tracks ∧ Artist t = a.
Proof.
  rewrite elem_of_dom, artistsOf_lookup. unfold bucket. split.
  - case_decide as Hb; [by intros [? ?]|]. intros _.
    destruct (filter _ tracks) as [|t l] eqn:E; [done|].
    assert (t ∈ filter (λ t, Artist t = a) tracks) as Hin by (rewrite E; left).
    apply list_elem_of_filter in Hin. naive_solver.
  - intros (t & Hin & Ha). rewrite decide_False; [done|].
    intros Hnil. assert (t ∈ filter (λ t, Artist t = a) tracks) as Hin'
      by by apply list_elem_of_filter.
    rewrite Hnil in Hin'. by apply elem_of_nil in Hin'.
Qed.

Lemma artistsOf_default (tracks : list Track) (a : gostring) :
  default [] (artistsOf tracks !! a) = bucket tracks a.
Proof. rewrite artistsOf_lookup. by case_decide. Qed.

(** ** More on the parser *)

(** The ten keys [parse] dispatches on. *)
Definition recognised (line : gostring) : bool :=
  structural line || isTag (key line).

Lemma parseLine_unrecognised (st : parser) (line : gostring) :
  recognised line = false → parseLine st line = Ok st.
Proof.
  unfold recognised. intros [Hs Ht]%orb_false_elim.
  unfold structural in Hs. apply bool_decide_eq_false in Hs.
  rewrite !elem_of_cons, elem_of_nil in Hs.
  unfold key in *. unfold parseLine. destruct (keyval line) as [k v].
  simpl in *. rewrite Ht.
  by rewrite !bool_decide_eq_false_2 by naive_solver.
Qed.

(** X1: a line whose key is none of the ten that [parse] knows changes
    nothing: the result is that of the input without the line. *)
Theorem parse_ignores_unknown_keys
    (before after : list gostring) (line : gostring) (scanErr : option error) :
  recognised line = false →
  parse (before ++ line :: after) scanErr = parse (before ++ after) scanErr.
Proof.
  intros Hl. unfold parse. rewrite !foldR_app.
  destruct (foldR parseLine _ before) as [st|f]; [|done].
  cbn [bind foldR]. by rewrite parseLine_unrecognised.
Qed.

Lemma parse_ignores_unknown_keys_witness :
  parse ([bytes "directory: Music"] ++ bytes "mtime: 1400000000"
         :: [bytes "song_begin: a.mp3"; bytes "song_end"; bytes "end: Music"]) None
  = parse ([bytes "directory: Music"]
           ++ [bytes "song_begin: a.mp3"; bytes "song_end"; bytes "end: Music"]) None.
Proof. apply parse_ignores_unknown_keys. by_evaluation. Defined.

(** Where the loop fails, an [end] line met an empty stack. *)
Lemma foldR_parseLine_Fail (lines : list gostring) (st : parser) (f : failure) :
  foldR parseLine st lines = Fail f →
  ∃ before line after st',
    lines = before ++ line :: after ∧ key line = bytes "end"
    ∧ foldR parseLine st before = Ok st' ∧ dirs st' = [].
Proof.
  revert st. induction lines as [|l lines IH]; intros st; [done|].
  cbn [foldR]. destruct (parseLine st l) as [st1|f1] eqn:Hl; cbn [bind].
  - intros (before & line & after & st' & -> & Hk & Hb & Hd)%IH.
    exists (l :: before), line, after, st'. split_and!; [done|done| |done].
    cbn [foldR]. by rewrite Hl.
  - intros _. exists [], l, lines, st.
    destruct (parseLine_cases l) as [Hk|[Hk|[Hk|[Hk|Hk]]]].
    + by rewrite parseLine_directory in Hl.
    + split_and!; [done|done|done|].
      destruct (dirs st) as [|d ds _] eqn:Hd using rev_ind; [done|].
      by rewrite (parseLine_end st l ds d) in Hl.
    + by rewrite parseLine_song_begin in Hl.
    + by rewrite parseLine_song_end in Hl.
    + destruct (parseLine_other st l Hk) as (tr & Htr & _). congruence.
Qed.

(** X2: without a scanner error, [parse] fails exactly when some [end]
    line comes after as many [end] lines as [directory] lines, and then
    with the corrupted-database exit; in particular directories left
    open at the end of the input are accepted. *)
Theorem parse_fails_iff_underflow (lines : list gostring) :
  (∃ f, parse lines None = Fail f) ↔
  ∃ before line after,
    lines = before ++ line :: after ∧ key line = bytes "end"
    ∧ (directives "directory" before ≤ directives "end" before)%nat.
Proof.
  split.
  - intros [f Hf]. unfold parse in Hf.
    destruct (foldR parseLine _ lines) as [st|f'] eqn:Hfold; [done|].
    apply foldR_parseLine_Fail in Hfold
      as (before & line & after & st' & -> & Hk & Hb & Hd).
    exists before, line, after. split_and!; [done|done|].
    pose proof (foldR_parseLine_depth before
                  {| tracks := []; track := newTrack; dirs := [] |}) as Hdepth.
    rewrite Hb in Hdepth. cbn [dirs] in Hdepth. rewrite Hd in Hdepth.
    change (len (@nil gostring)) with 0 in Hdepth. lia.
  - intros (before & line & after & -> & Hk & Hdepth).
    exists (Exited 1 (Some corrupted)). unfold parse. rewrite foldR_app.
    pose proof (foldR_parseLine_depth before
                  {| tracks := []; track := newTrack; dirs := [] |}) as Hb.
    destruct (foldR parseLine _ before) as [st|f]; [|by subst f].
    cbn [bind foldR]. cbn [dirs] in Hb.
    assert (dirs st = []) as Hd.
    { change (len (@nil gostring)) with 0 in Hb.
      destruct (dirs st) as [|d ds]; [done|]. rewrite len_cons in Hb.
      pose proof (len_nonneg ds). lia. }
    by rewrite parseLine_end_empty.
Qed.



(** ** Reconciling the queue *)

(** What [mpc playlist -f "%position% %file%"] prints for a queue of
    (position, path) entries: one line each, newline-terminated. *)
Definition queueLine (e : gostring * gostring) : gostring :=
  e.1 ++ bytes " " ++ e.2.

Definition playlistOutput (queue : list (gostring * gostring)) : gostring :=
  concat ((λ e, queueLine e ++ [newline]) <$> queue).

Definition wellFormedEntry (e : gostring * gostring) : Prop :=
  " "%char ∉ e.1 ∧ newline ∉ e.1 ∧ newline ∉ e.2.

Lemma Split_playlistOutput (queue : list (gostring * gostring)) :
  Forall wellFormedEntry queue →
  GoStrings.Split (playlistOutput queue) newline = (queueLine <$> queue) ++ [[]].
Proof.
  induction 1 as [|e queue (Hsp & Hnl1 & Hnl2) _ IH]; [done|].
  unfold playlistOutput. cbn [fmap list_fmap concat]. rewrite <- app_assoc.
  cbn [app]. rewrite Split_app.
  - unfold playlistOutput in IH. by rewrite IH.
  - unfold queueLine. rewrite !not_elem_of_app. split_and!; [done| |done].
    by_evaluation.
Qed.

Lemma SplitN2_entry (pos path : gostring) :
  " "%char ∉ pos → SplitN2 (pos ++ bytes " " ++ path) = [pos; path].
Proof.
  intros Hsp. unfold SplitN2.
  change (bytes " " ++ path) with (" "%char :: path).
  change (bytes " ") with [" "%char].
  rewrite Index_byte_first by done. pose proof (len_nonneg pos).
  replace (len pos <? 0) with false by (symmetry; apply Z.ltb_ge; lia).
  f_equal; [apply slice_to_app|]. f_equal.
  replace (len pos + 1) with (len (pos ++ [" "%char])).
  - change (" "%char :: path) with ([" "%char] ++ path).
    rewrite app_assoc. apply slice_from_app.
  - by rewrite len_app.
Qed.

Lemma stalePositions_playlist (fnames : gset gostring)
    (queue : list (gostring * gostring)) :
  Forall wellFormedEntry queue →
  stalePositions fnames (playlistOutput queue) =
    (filter (λ e, e.2 ∈ fnames) queue).*1.
Proof.
  intros Hwf. unfold stalePositions. rewrite Split_playlistOutput by done.
  rewrite flat_map_app. cbn [flat_map]. rewrite !app_nil_r.
  induction Hwf as [|[pos path] queue (Hsp & _ & _) _ IH]; [done|].
  cbn [fmap list_fmap flat_map]. unfold queueLine at 1. cbn [fst snd].
  rewrite SplitN2_entry by done. rewrite filter_cons. cbn [snd].
  rewrite IH. case_bool_decide; case_decide; done.
Qed.

(** X4: when the queue listing is well formed and [mpc del] starts,
    [removeSongs] writes to it the positions of exactly those queue
    entries whose path is one of the songs and is not empty, in queue
    order (a path that occurs twice in the queue gives both positions),
    and returns the error of closing or of waiting. *)
Theorem removeSongs_positions
    (env : Env) (songs : list gostring)
    (queue : list (gostring * gostring)) (tr : list event) :
  mpcPlaylist env = (playlistOutput queue, None) →
  mpcDelStart env = None →
  Forall wellFormedEntry queue →
  removeSongs env songs tr =
    (Ok (match mpcDelClose env with Some err => Some err | None => mpcDelWait env end),
     tr ++ [Start [bytes "mpc"; bytes "playlist"; bytes "-f"; bytes "%position% %file%"];
            Start [bytes "mpc"; bytes "del"];
            Input (filter (λ e, e.2 ∈ songs ∧ e.2 ≠ []) queue).*1]).
Proof.
  intros Hplay Hstart Hwf. unfold removeSongs, bindM, emit, ret.
  rewrite Hplay, Hstart. cbn [fst snd].
  rewrite stalePositions_playlist by done.
  assert ((filter (λ e : gostring * gostring,
                     e.2 ∈ (list_to_set (filter (λ s, s ≠ []) songs) : gset gostring))
                  queue)
          = filter (λ e, e.2 ∈ songs ∧ e.2 ≠ []) queue) as ->.
  { apply list_filter_iff. intros e.
    by rewrite elem_of_list_to_set, list_elem_of_filter, (comm and). }
  rewrite <- !app_assoc. by destruct (mpcDelClose env).
Qed.

Definition mpcInsert : event := Start [bytes "mpc"; bytes "insert"].
Definition mpcDel : event := Start [bytes "mpc"; bytes "del"].
Definition mpcPlaylistCmd : event :=
  Start [bytes "mpc"; bytes "playlist"; bytes "-f"; bytes "%position% %file%"].

Section RunFacts.
Context `{Unicode}.
Variable env : Env.

Lemma lift_run {A} (r : result A) (tr : list event) : lift r tr = (r, tr).
Proof. done. Qed.

Lemma readTracks_trace (tr : list event) : (readTracks env tr).2 = tr.
Proof.
  unfold readTracks, bindM, lift, ret.
  destruct (database env) as [db|]; [|done].
  destruct (parse db.1 db.2); [|done].
  destruct (groupByArtist (mapOrder env) a); [|done].
  destruct (fail (gzClose env)); [|done].
  by destruct (fail (fClose env)).
Qed.

(** [fzfSongs] starts the terminal tools and the selector, never a
    queue tool. *)
Lemma fzfSongs_trace (tracks : list (option Track)) (tr : list event) :
  ∃ evs, (fzfSongs env tracks tr).2 = tr ++ evs
         ∧ Forall (λ e, isQueueTool e = false) evs.
Proof.
  unfold fzfSongs, trackFormatter, bindM, lift, ret, emit.
  set (tmux := Start [bytes "tmux"; _; _; _]).
  set (stty := Start [bytes "stty"; _]).
  set (fzf := Start [bytes "fzf-tmux"; _; _]).
  assert (isQueueTool tmux = false) as Htmux by by_evaluation.
  assert (isQueueTool stty = false) as Hstty by by_evaluation.
  assert (isQueueTool fzf = false) as Hfzf by by_evaluation.
  assert (∀ lines, isQueueTool (Input lines) = false) as Hin by done.
  destruct (tmuxWidth env) as [w|]; [|destruct (columnsWidth env) as [w|]].
  all: destruct (fail (fzfStdinPipe env));
    [|eexists; rewrite <- ?app_assoc; split; [done|]; by repeat constructor].
  all: destruct (fail (fzfStdoutPipe env));
    [|eexists; rewrite <- ?app_assoc; split; [done|]; by repeat constructor].
  all: destruct (fail (fzfStart env));
    [|eexists; rewrite <- ?app_assoc; split; [done|]; by repeat constructor].
  all: destruct (mapR _ tracks) as [lines|];
    [|eexists; rewrite <- ?app_assoc; split; [done|]; by repeat constructor].
  all: destruct (fail (fzfClose env));
    [|eexists; rewrite <- ?app_assoc; split; [done|]; by repeat constructor].
  all: destruct (fzfRun env lines) as [[out readErr] waitErr].
  all: destruct (fail readErr);
    [|eexists; rewrite <- ?app_assoc; split; [done|]; by repeat constructor].
  all: destruct (fzfCheckExit waitErr);
    eexists; rewrite <- ?app_assoc; (split; [done|]); by repeat constructor.
Qed.

Lemma removeSongs_run (songs : list gostring) (tr : list event) :
  ∃ err evs, removeSongs env songs tr = (Ok err, tr ++ evs)
    ∧ mpcInsert ∉ evs
    ∧ (err = None → (mpcPlaylist env).2 = None ∧ mpcDelStart env = None
                    ∧ mpcDelClose env = None ∧ mpcDelWait env = None
                    ∧ mpcDel ∈ evs).
Proof.
  unfold removeSongs, bindM, emit, ret. fold mpcPlaylistCmd mpcDel.
  assert (∀ evs, Forall (λ e, e ≠ mpcInsert) evs → mpcInsert ∉ evs) as Hnot.
  { intros evs Hall Hin. rewrite Forall_forall in Hall. by apply (Hall _ Hin). }
  destruct (mpcPlaylist env).2 as [e|].
  { exists (Some e), [mpcPlaylistCmd]. split_and!; [done| |done].
    apply Hnot. by repeat constructor. }
  destruct (mpcDelStart env) as [e|].
  { exists (Some e), [mpcPlaylistCmd; mpcDel]. rewrite <- app_assoc.
    split_and!; [done| |done]. apply Hnot. by repeat constructor. }
  destruct (mpcDelClose env) as [e|].
  { eexists (Some e), [mpcPlaylistCmd; mpcDel; Input _]. rewrite <- !app_assoc.
    split_and!; [done| |done]. apply Hnot. by repeat constructor. }
  eexists (mpcDelWait env), [mpcPlaylistCmd; mpcDel; Input _].
  rewrite <- !app_assoc. split_and!; [done| |].
  - apply Hnot. by repeat constructor.
  - intros ->. split_and!; try done. apply elem_of_cons. right. by left.
Qed.

End RunFacts.

Section MainFacts.
Context `{Unicode}.
Variable env : Env.

Lemma queue_tool_not_in (evs : list event) (e : event) :
  Forall (λ e, isQueueTool e = false) evs → isQueueTool e = true → e ∉ evs.
Proof.
  intros Hall He Hin. rewrite Forall_forall in Hall.
  specialize (Hall _ Hin). congruence.
Qed.

Lemma insertSongs_run (songs : list gostring) (tr : list event) :
  ∃ err evs, insertSongs env songs tr = (Ok err, tr ++ mpcInsert :: evs).
Proof.
  unfold insertSongs, bindM, emit, ret. fold mpcInsert.
  destruct (mpcInsertStart env); [by eexists _, []|].
  destruct (mpcInsertClose env); rewrite <- app_assoc; by eexists _, [_].
Qed.

(** X5: whatever the environment answers, [main] starts [mpc insert]
    only after the removal went through without any error: the queue
    was listed, [mpc del] was started, fed, closed and waited for. *)
Theorem main_insert_only_after_removal :
  mpcInsert ∈ (main env []).2 →
  (mpcPlaylist env).2 = None ∧ mpcDelStart env = None
  ∧ mpcDelClose env = None ∧ mpcDelWait env = None
  ∧ mpcDel ∈ (main env []).2.
Proof.
  unfold main, bindM.
  pose proof (readTracks_trace env []) as Hread.
  destruct (readTracks env []) as [[tracks|f] tr1]; cbn [snd] in *; subst tr1;
    [|by intros ?%elem_of_nil].
  destruct (fzfSongs_trace env tracks []) as (evs & Hevs & Hno).
  destruct (fzfSongs env tracks []) as [[songs|f] tr2]; cbn [snd app] in *;
    subst tr2; [|by intros ?%queue_tool_not_in].
  destruct (len songs =? 0); [by intros ?%queue_tool_not_in|].
  destruct (removeSongs_run env songs evs) as (err & evs' & -> & Hnot & Herr).
  destruct err as [e|]; cbn [lift fail snd].
  { rewrite elem_of_app. by intros [?%queue_tool_not_in|?]. }
  destruct (Herr eq_refl) as (? & ? & ? & ? & Hdel). intros _.
  split_and!; try done.
  destruct (insertSongs_run songs (evs ++ evs')) as (err & evs'' & ->).
  unfold lift. cbn [snd]. rewrite !elem_of_app. auto.
Qed.

(** X6: [main] starts a queue tool only when the selection came back
    and is not empty. *)
Theorem main_queue_tools_need_selection (e : event) :
  e ∈ (main env []).2 → isQueueTool e = true →
  ∃ tracks songs tr,
    (readTracks env []).1 = Ok tracks
    ∧ fzfSongs env tracks [] = (Ok songs, tr) ∧ songs ≠ [].
Proof.
  unfold main, bindM.
  pose proof (readTracks_trace env []) as Hread.
  destruct (readTracks env []) as [[tracks|f] tr1]; cbn [snd fst] in *; subst tr1;
    [|by intros ?%elem_of_nil].
  destruct (fzfSongs_trace env tracks []) as (evs & Hevs & Hno).
  destruct (fzfSongs env tracks []) as [[songs|f] tr2] eqn:Hfzf; cbn [snd app] in *;
    subst tr2; [|intros Hin He; by apply queue_tool_not_in in Hin].
  destruct (len songs =? 0) eqn:Hlen;
    [intros Hin He; by apply queue_tool_not_in in Hin|].
  intros _ _. exists tracks, songs, evs. split_and!; [done|done|].
  intros ->. done.
Qed.

End MainFacts.

(** ** The selector session *)

(** The width [trackFormatter] ends up with. *)
Definition termWidth (env : Env) : Z :=
  match tmuxWidth env with
  | Some w => w
  | None =>
      match columnsWidth env with
      | Some w => w
      | None => default 0 (sttyWidth env)
      end
  end.

(** What the selector prints for the chosen lines: each one followed by
    a newline. *)
Definition selectorOutput (chosen : list gostring) : gostring :=
  concat ((λ l, l ++ [newline]) <$> chosen).

Lemma selectorOutput_Join (chosen : list gostring) :
  chosen ≠ [] →
  selectorOutput chosen = GoStrings.Join chosen [newline] ++ [newline].
Proof.
  induction chosen as [|l chosen IH]; [done|]. intros _.
  unfold selectorOutput in *. cbn [fmap list_fmap concat].
  destruct chosen as [|l' chosen]; [by rewrite app_nil_r|].
  rewrite IH by done. rewrite Join_cons. by rewrite <- !app_assoc.
Qed.

Section SelectorFacts.
Context `{Unicode}.
Variable env : Env.

Lemma mapR_Some_tracks (w : Z) (tracks : list Track) :
  mapR (λ t : option Track,
          match t with
          | Some t => format w t
          | None => Fail (Panicked (bytes "nil pointer dereference"))
          end) (Some <$> tracks)
  = mapR (format w) tracks.
Proof.
  induction tracks as [|t tracks IH]; [done|].
  cbn [fmap list_fmap mapR]. by rewrite IH.
Qed.

(** A track whose path comes back from its line. *)
Definition recoverable (t : Track) : Prop :=
  GoStrings.HasPrefix (Path t) (bytes "/") = false
  ∧ GoStrings.Index (Path t) delimiter = -1.

Lemma decode_formatted (w : Z) (chosen : list Track) (chosenLines : list gostring) :
  Forall recoverable chosen →
  mapR (format w) chosen = Ok chosenLines →
  mapR decodeLine chosenLines = Ok (Path <$> chosen)
  ∧ (chosen ≠ [] → chosenLines ≠ [] ∧ head chosenLines ≠ Some []).
Proof.
  intros Hrec. revert chosenLines.
  induction Hrec as [|t chosen [Hslash Hdelim] _ IH]; intros chosenLines.
  - by intros [= <-].
  - cbn [mapR]. destruct (format w t) as [l|] eqn:Hl; [|done]. cbn [bind].
    destruct (mapR (format w) chosen) as [ls|]; [|done]. cbn [bind].
    intros [= <-]. destruct (IH ls eq_refl) as [IHdec _].
    apply format_line in Hl as (visible & ->). split.
    + cbn [mapR fmap list_fmap].
      rewrite decodeLine_last by by apply lastInstance_intro.
      cbn [bind]. by rewrite IHdec.
    + intros _. split; [done|]. cbn [head]. intros [= Habs].
      apply app_eq_nil in Habs as [_ Habs]. discriminate Habs.
Qed.

(** X7: when the selector is given a line per track and prints some of
    these lines back, in any order and number, [fzfSongs] returns the
    paths of the chosen tracks in the order printed, provided their
    paths neither begin with a slash nor contain the delimiter and
    their lines hold no newline. *)
Theorem fzfSongs_selected_paths
    (tracks chosen : list Track) (lines chosenLines : list gostring)
    (tr : list event) :
  fzfStdinPipe env = None → fzfStdoutPipe env = None →
  fzfStart env = None → fzfClose env = None →
  mapR (format (termWidth env)) tracks = Ok lines →
  fzfRun env lines = (selectorOutput chosenLines, None, None) →
  chosen ≠ [] → Forall recoverable chosen →
  mapR (format (termWidth env)) chosen = Ok chosenLines →
  Forall (λ l, newline ∉ l) chosenLines →
  (fzfSongs env (Some <$> tracks) tr).1 = Ok (Path <$> chosen).
Proof.
  intros Hin Hout Hstart Hclose Hlines Hrun Hne Hrec Hchosen Hnl.
  destruct (decode_formatted _ _ _ Hrec Hchosen) as [Hdec Hhead].
  destruct (Hhead Hne) as [Hne' Hhd].
  assert (parseFzfOutput (selectorOutput chosenLines) = Ok (Path <$> chosen))
    as Hparse.
  { rewrite selectorOutput_Join by done.
    by rewrite parseFzfOutput_terminated. }
  unfold fzfSongs, trackFormatter, bindM, lift, ret, emit.
  rewrite Hin, Hout, Hstart, Hclose. unfold termWidth in Hlines.
  destruct (tmuxWidth env) as [w|]; [|destruct (columnsWidth env) as [w|]].
  all: cbn [fail]; rewrite mapR_Some_tracks, Hlines, Hrun; cbn [fail fzfCheckExit];
    by rewrite Hparse.
Qed.

End SelectorFacts.

(** ** A complete run *)

(** A run in which everything succeeds: a library of two songs, a
    terminal 100 columns wide, a user who picks the first line offered,
    and a queue that already holds the picked song twice. *)
Definition sampleEnv : Env :=
  {| database :=
       Ok ([bytes "directory: Music";
            bytes "song_begin: a.mp3"; bytes "Artist: Sia"; bytes "Title: Chandelier";
            bytes "Time: 215"; bytes "song_end";
            bytes "song_begin: b.flac"; bytes "Artist: Air";
            bytes "Title: La femme d'argent"; bytes "song_end";
            bytes "end: Music"], None);
     mapOrder := [bytes "Air"; bytes "Sia"];
     gzClose := None; fClose := None;
     tmuxWidth := Some 100; columnsWidth := None; sttyWidth := None;
     fzfStdinPipe := None; fzfStdoutPipe := None; fzfStart := None; fzfClose := None;
     fzfRun := λ lines, (selectorOutput (take 1 lines), None, None);
     mpcPlaylist :=
       (playlistOutput [(bytes "1", bytes "Music/a.mp3");
                        (bytes "2", bytes "Music/b.flac");
                        (bytes "3", bytes "Music/b.flac")], None);
     mpcDelStart := None; mpcDelClose := None; mpcDelWait := None;
     mpcInsertStart := None; mpcInsertClose := None; mpcInsertWait := None |}.

Example main_sampleEnv :
  (main sampleEnv []).1 = Ok tt
  ∧ drop 3 (main sampleEnv []).2 =
      [mpcPlaylistCmd; mpcDel; Input [bytes "2"; bytes "3"];
       mpcInsert; Input [bytes "Music/b.flac"]].
Proof. vm_compute. done. Qed.

Section Reconcile.
Context `{Unicode}.
Variable env : Env.

(** X8: a run with a non-empty selection in which the queue tools
    succeed: the positions of the queue entries that hold a selected
    path go to [mpc del], in queue order, and then the selected paths,
    in selection order, go to a single [mpc insert]; [main] returns. *)
Theorem main_reconciles
    (tracks : list (option Track)) (songs : list gostring)
    (queue : list (gostring * gostring)) (tr : list event) :
  (readTracks env []).1 = Ok tracks →
  fzfSongs env tracks [] = (Ok songs, tr) → songs ≠ [] →
  mpcPlaylist env = (playlistOutput queue, None) →
  Forall wellFormedEntry queue →
  mpcDelStart env = None → mpcDelClose env = None → mpcDelWait env = None →
  mpcInsertStart env = None → mpcInsertClose env = None →
  mpcInsertWait env = None →
  main env [] =
    (Ok tt,
     tr ++ [mpcPlaylistCmd; mpcDel;
            Input (filter (λ e, e.2 ∈ songs ∧ e.2 ≠ []) queue).*1;
            mpcInsert; Input songs]).
Proof.
  intros Hread Hfzf Hne Hplay Hwf Hds Hdc Hdw His Hic Hiw.
  unfold main, bindM.
  pose proof (readTracks_trace env []) as Htr.
  destruct (readTracks env []) as [r tr1]. cbn [fst snd] in *. subst r tr1.
  rewrite Hfzf.
  replace (len songs =? 0) with false.
  2:{ symmetry. apply Z.eqb_neq. unfold len. destruct songs; [done|].
      cbn [length]. lia. }
  rewrite (removeSongs_positions env songs queue tr Hplay Hds Hwf).
  rewrite Hdc, Hdw. unfold lift. cbn [fail].
  unfold insertSongs, bindM, emit, ret. rewrite His, Hic, Hiw. cbn [fail].
  by rewrite <- !app_assoc.
Qed.

End Reconcile.

Lemma sampleQueue_wellFormed :
  Forall wellFormedEntry [(bytes "1", bytes "Music/a.mp3");
                          (bytes "2", bytes "Music/b.flac");
                          (bytes "3", bytes "Music/b.flac")].
Proof.
  repeat constructor; apply (bool_decide_unpack _); vm_compute; exact I.
Qed.

Lemma removeSongs_positions_witness :
  (removeSongs sampleEnv [bytes "Music/b.flac"; bytes ""] []).2 =
    [mpcPlaylistCmd; mpcDel; Input [bytes "2"; bytes "3"]].
Proof.
  rewrite (removeSongs_positions sampleEnv _ _ [] eq_refl eq_refl sampleQueue_wellFormed).
  vm_compute. reflexivity.
Defined.

Lemma main_insert_only_after_removal_witness :
  (mpcPlaylist sampleEnv).2 = None ∧ mpcDelStart sampleEnv = None
  ∧ mpcDelClose sampleEnv = None ∧ mpcDelWait sampleEnv = None
  ∧ mpcDel ∈ (main sampleEnv []).2.
Proof.
  apply (main_insert_only_after_removal sampleEnv).
  apply list_elem_of_lookup. exists 6%nat. vm_compute. reflexivity.
Defined.

Lemma main_queue_tools_need_selection_witness :
  ∃ tracks songs tr,
    (readTracks sampleEnv []).1 = Ok tracks
    ∧ fzfSongs sampleEnv tracks [] = (Ok songs, tr) ∧ songs ≠ [].
Proof.
  apply (main_queue_tools_need_selection sampleEnv mpcDel).
  - apply list_elem_of_lookup. exists 4%nat. vm_compute. reflexivity.
  - vm_compute. reflexivity.
Defined.

Lemma main_reconciles_witness :
  (main sampleEnv []).1 = Ok tt
  ∧ drop 3 (main sampleEnv []).2 =
      [mpcPlaylistCmd; mpcDel; Input [bytes "2"; bytes "3"];
       mpcInsert; Input [bytes "Music/b.flac"]].
Proof.
  erewrite (main_reconciles sampleEnv _ [bytes "Music/b.flac"] _ _);
    [ | vm_compute; reflexivity | vm_compute; reflexivity | discriminate
      | reflexivity | exact sampleQueue_wellFormed | reflexivity ..].
  vm_compute. split; reflexivity.
Defined.

Definition airTrack : Track :=
  {| Album := []; Artist := bytes "Air"; Date := []; Filename := bytes "b.flac";
     Genre := []; Path := bytes "Music/b.flac"; Time := [];
     Title := bytes "La femme d'argent" |}.

Definition siaTrack : Track :=
  {| Album := []; Artist := bytes "Sia"; Date := []; Filename := bytes "a.mp3";
     Genre := []; Path := bytes "Music/a.mp3"; Time := bytes "(03:35)";
     Title := bytes "Chandelier" |}.

Lemma fzfSongs_selected_paths_witness :
  (fzfSongs sampleEnv (Some <$> [airTrack; siaTrack]) []).1
  = Ok [bytes "Music/b.flac"].
Proof.
  eapply (fzfSongs_selected_paths sampleEnv [airTrack; siaTrack] [airTrack]).
  1-4: reflexivity.
  - vm_compute. reflexivity.
  - reflexivity.
  - discriminate.
  - repeat constructor; vm_compute; reflexivity.
  - vm_compute. reflexivity.
  - repeat constructor. apply (bool_decide_unpack _). vm_compute. exact I.
Defined.

(** ** The configuration file *)

Lemma Index_tilde (rest : gostring) :
  GoStrings.Index ("~"%char :: rest) (bytes "~") = 0.
Proof. done. Qed.

Lemma expandUser_short (path home : gostring) :
  len path < 2 →
  expandUser path home = Fail (Panicked (bytes "slice bounds out of range")).
Proof.
  intros Hlen. unfold expandUser.
  by replace (len path <? 2) with true by (symmetry; apply Z.ltb_lt; lia).
Qed.

(** X9: [expandUser] replaces a leading [~/] by the home directory and a
    slash, returns any other path of two bytes or more as it is (a
    path [~user/...] included), and panics on a path of fewer than two
    bytes. *)
Theorem expandUser_cases (home : gostring) :
  (∀ rest, expandUser (bytes "~/" ++ rest) home = Ok (home ++ bytes "/" ++ rest))
  ∧ (∀ path, 2 ≤ len path → GoStrings.HasPrefix path (bytes "~/") = false →
             expandUser path home = Ok path)
  ∧ (∀ path, len path < 2 →
             expandUser path home = Fail (Panicked (bytes "slice bounds out of range"))).
Proof.
  split_and!.
  - intros rest. unfold expandUser.
    change (bytes "~/" ++ rest) with ("~"%char :: "/"%char :: rest).
    rewrite !len_cons. pose proof (len_nonneg rest).
    replace (len rest + 1 + 1 <? 2) with false by (symmetry; apply Z.ltb_ge; lia).
    cbn [slice_to Z.to_nat Pos.to_nat Pos.iter_op Nat.add take].
    rewrite bool_decide_eq_true_2 by done.
    unfold Replace1. rewrite Index_tilde. by rewrite app_nil_r || done.
  - intros path Hlen Hpre. unfold expandUser.
    replace (len path <? 2) with false by (symmetry; apply Z.ltb_ge; lia).
    rewrite bool_decide_eq_false_2; [done|].
    intros Heq. destruct path as [|a [|b path]]; [done|done|].
    cbn in Heq. injection Heq as -> ->. done.
  - intros path Hlen. by apply expandUser_short.
Qed.

Lemma expandUser_cases_witness :
  expandUser (bytes "~user/db") (bytes "/home/sia") = Ok (bytes "~user/db").
Proof.
  destruct (expandUser_cases (bytes "/home/sia")) as (_ & Hother & _).
  apply Hother; vm_compute; [discriminate|reflexivity].
Defined.

Lemma expandUser_Ok (m home : gostring) :
  2 ≤ len m → ∃ v, expandUser m home = Ok v ∧ v ≠ [].
Proof.
  intros Hlen. unfold expandUser.
  replace (len m <? 2) with false by (symmetry; apply Z.ltb_ge; lia).
  case_bool_decide as Hpre.
  - eexists. split; [done|].
    destruct m as [|a [|b m]]; [done|done|]. cbn in Hpre.
    injection Hpre as -> ->. unfold Replace1. rewrite Index_tilde.
    change (slice_to ("~"%char :: "/"%char :: m) 0) with (@nil ascii).
    change (slice_from ("~"%char :: "/"%char :: m) (0 + len (bytes "~")))
      with ("/"%char :: m).
    cbn [app]. intros [_ Habs]%app_eq_nil. discriminate Habs.
  - exists m. split; [done|]. intros ->. by cbn in Hlen.
Qed.

Lemma foldR_scanDbFile (home dbFile : gostring) (lines : list gostring) :
  Forall (λ m, 2 ≤ len m) (omap matchDbFile lines) →
  foldR (scanDbFile home) dbFile lines =
    match last (omap matchDbFile lines) with
    | Some m => expandUser m home
    | None => Ok dbFile
    end.
Proof.
  revert dbFile. induction lines as [|l lines IH]; intros dbFile Hall; [done|].
  cbn [foldR omap list_omap] in *. unfold scanDbFile at 1.
  destruct (matchDbFile l) as [m|].
  - apply Forall_cons in Hall as [Hm Hall].
    destruct (expandUser_Ok m home Hm) as (v & Hv & _). rewrite Hv. cbn [bind].
    rewrite IH by done. destruct (omap matchDbFile lines) as [|m' ms] eqn:E.
    + cbn [last]. by rewrite Hv.
    + rewrite last_cons_cons.
      destruct (last (m' :: ms)) eqn:Hl; [done|]. by apply last_None in Hl.
  - cbn [bind]. by apply IH.
Qed.

Lemma firstOpen_first (cenv : ConfEnv) (paths : list gostring) (i : nat)
    (confpath : gostring) (f : list gostring * option error * option error) :
  paths !! i = Some confpath → openConf cenv confpath = Some f →
  (∀ j p, (j < i)%nat → paths !! j = Some p → openConf cenv p = None) →
  firstOpen cenv paths = Some (confpath, f).
Proof.
  revert i. induction paths as [|p paths IH]; intros i Hi Hopen Hbefore; [done|].
  destruct i as [|i].
  - injection Hi as ->. cbn [firstOpen]. by rewrite Hopen.
  - cbn [firstOpen]. rewrite (Hbefore 0%nat p); [|lia|done].
    apply (IH i); [done|done|].
    intros j q Hj Hq. apply (Hbefore (S j)); [lia|done].
Qed.

Definition noDbFile (confpath : gostring) : gostring :=
  bytes "Could not find 'db_file' in configuration file '" ++ confpath ++ bytes "'".

(** X10: [findDbFile] reads the first of its five candidate paths that
    opens, and no other.  When that file is read and closed without
    error and every quoted [db_file] value in it has two bytes or more,
    the result is the expansion of the value of the last [db_file] line;
    without any such line the run exits with status 1 and the message
    that names the file. *)
Theorem findDbFile_last_line_wins
    (cenv : ConfEnv) (home confpath : gostring) (lines : list gostring) (i : nat) :
  currentHome cenv = inl home →
  confPaths home (xdgConfigHome cenv) !! i = Some confpath →
  openConf cenv confpath = Some (lines, None, None) →
  (∀ j p, (j < i)%nat → confPaths home (xdgConfigHome cenv) !! j = Some p →
          openConf cenv p = None) →
  Forall (λ m, 2 ≤ len m) (omap matchDbFile lines) →
  findDbFile cenv =
    match last (omap matchDbFile lines) with
    | Some m => expandUser m home
    | None => Fail (Exited 1 (Some (noDbFile confpath)))
    end.
Proof.
  intros Hhome Hi Hopen Hbefore Hall. unfold findDbFile. rewrite Hhome.
  rewrite (firstOpen_first cenv _ i confpath _ Hi Hopen Hbefore).
  rewrite foldR_scanDbFile by done.
  destruct (last (omap matchDbFile lines)) as [m|] eqn:Hlast; [|done].
  assert (2 ≤ len m) as Hm.
  { rewrite Forall_forall in Hall. apply Hall.
    apply last_Some in Hlast as [ms ->]. apply elem_of_app. right. by left. }
  destruct (expandUser_Ok m home Hm) as (v & -> & Hv).
  cbn [bind fail]. by rewrite bool_decide_eq_false_2.
Qed.

(** A configuration in the user's [.config] directory, with two
    [db_file] lines and one commented out. *)
Definition sampleConfLines : list gostring :=
  [bytes "# mpd configuration";
   bytes "music_directory " ++ [dquote] ++ bytes "~/Music" ++ [dquote];
   bytes "db_file " ++ [dquote] ++ bytes "/var/lib/mpd/old" ++ [dquote];
   bytes "  db_file     " ++ [dquote] ++ bytes "~/.mpd/database" ++ [dquote]
     ++ bytes " # current";
   bytes "#db_file " ++ [dquote] ++ bytes "/nowhere" ++ [dquote]].

Definition sampleConf : ConfEnv :=
  {| currentHome := inl (bytes "/home/sia");
     xdgConfigHome := [];
     openConf := λ path,
       if bool_decide (path = bytes "/home/sia/.config/mpd/mpd.conf")
       then Some (sampleConfLines, None, None) else None |}.

Lemma findDbFile_last_line_wins_witness :
  findDbFile sampleConf = Ok (bytes "/home/sia/.mpd/database").
Proof.
  rewrite (findDbFile_last_line_wins sampleConf (bytes "/home/sia")
             (bytes "/home/sia/.config/mpd/mpd.conf") sampleConfLines 1).
  - vm_compute. reflexivity.
  - reflexivity.
  - vm_compute. reflexivity.
  - vm_compute. reflexivity.
  - intros [|j] p Hj; [|lia]. vm_compute. intros [= <-]. reflexivity.
  - vm_compute. repeat constructor; discriminate.
Defined.

Definition spaces (ws : gostring) : Prop := Forall (λ c, isSpace c = true) ws.

Lemma skipSpace_app (ws t : gostring) :
  spaces ws → skipSpace (ws ++ t) = skipSpace t.
Proof.
  induction 1 as [|c ws Hc _ IH]; [done|]. cbn [app skipSpace]. by rewrite Hc.
Qed.

Lemma skipSpace_split (s : gostring) :
  ∃ ws, s = ws ++ skipSpace s ∧ spaces ws.
Proof.
  induction s as [|c s (ws & Hs & Hws)]; [exists []; split; [done|constructor]|].
  cbn [skipSpace]. destruct (isSpace c) eqn:Hc.
  - exists (c :: ws). split; [cbn; by rewrite <- Hs | by constructor].
  - exists []. split; [done|constructor].
Qed.

Lemma quoted_app (q rest : gostring) :
  dquote ∉ q → quoted (q ++ dquote :: rest) = (q, dquote :: rest).
Proof.
  induction q as [|c q IH]; intros Hq; cbn [app quoted].
  - by rewrite bool_decide_eq_true_2.
  - apply not_elem_of_cons in Hq as [Hne Hq].
    rewrite bool_decide_eq_false_2 by congruence. by rewrite IH.
Qed.

Lemma quoted_split (s q r : gostring) :
  quoted s = (q, r) →
  s = q ++ r ∧ dquote ∉ q ∧ (r = [] ∨ ∃ rest, r = dquote :: rest).
Proof.
  revert q r. induction s as [|c s IH]; intros q r; cbn [quoted].
  - intros [= <- <-]. split_and!; [done|apply not_elem_of_nil|by left].
  - case_bool_decide as Hc.
    + intros [= <- <-]. subst c.
      split_and!; [done|apply not_elem_of_nil|right; by eexists].
    + destruct (quoted s) as [q' r']. intros [= <- <-].
      destruct (IH q' r' eq_refl) as (-> & Hq & Hr).
      split_and!; [done| |done]. apply not_elem_of_cons. split; [congruence|done].
Qed.

(** X11: the matcher of [findDbFile] accepts exactly the lines that
    begin with optional white space, [db_file], optional white space and
    a non-empty text between double quotes, and its submatch is that
    text: a line where anything else comes first (a comment sign, for
    one) does not match. *)
Theorem matchDbFile_iff (line q : gostring) :
  matchDbFile line = Some q ↔
  ∃ ws ws' rest,
    line = ws ++ bytes "db_file" ++ ws' ++ dquote :: q ++ dquote :: rest
    ∧ spaces ws ∧ spaces ws' ∧ q ≠ [] ∧ dquote ∉ q.
Proof.
  split.
  - unfold matchDbFile. destruct (skipSpace_split line) as (ws & Hline & Hws).
    destruct (GoStrings.HasPrefix (skipSpace line) (bytes "db_file")) eqn:Hpre;
      [|done].
    apply HasPrefix_inv in Hpre. change (length (bytes "db_file")) with 7%nat in Hpre.
    destruct (skipSpace_split (drop 7 (skipSpace line))) as (ws' & Hrest & Hws').
    destruct (skipSpace (drop 7 (skipSpace line))) as [|c s'] eqn:Hs'; [done|].
    case_bool_decide as Hc; [subst c|done].
    destruct (quoted s') as [q' r] eqn:Hq.
    destruct r as [|c r]; [done|]. case_bool_decide as Hne; [done|].
    intros [= <-]. apply quoted_split in Hq as (-> & Hnq & [Habs|[rest [= -> ->]]]);
      [done|].
    exists ws, ws', rest. split_and!; try done.
    rewrite Hline at 1. rewrite Hpre at 1. by rewrite Hrest at 1.
  - intros (ws & ws' & rest & -> & Hws & Hws' & Hne & Hq).
    unfold matchDbFile. rewrite skipSpace_app by done.
    change (skipSpace (bytes "db_file" ++ ?t)) with (bytes "db_file" ++ t).
    rewrite HasPrefix_app.
    change (drop 7 (bytes "db_file" ++ ?t)) with t.
    rewrite skipSpace_app by done.
    change (skipSpace (dquote :: ?t)) with (dquote :: t).
    cbv iota beta. rewrite bool_decide_eq_true_2 by done.
    rewrite quoted_app by done. by rewrite bool_decide_eq_false_2.
Qed.

(** X12: a [db_file] line whose quoted value is a single byte makes
    [findDbFile] panic, even when a later [db_file] line is well formed,
    as long as the lines before it raise no panic themselves. *)
Theorem findDbFile_short_value_panics
    (cenv : ConfEnv) (home confpath : gostring)
    (before after : list gostring) (line m : gostring)
    (scanErr closeErr : option error) (i : nat) :
  currentHome cenv = inl home →
  confPaths home (xdgConfigHome cenv) !! i = Some confpath →
  openConf cenv confpath = Some (before ++ line :: after, scanErr, closeErr) →
  (∀ j p, (j < i)%nat → confPaths home (xdgConfigHome cenv) !! j = Some p →
          openConf cenv p = None) →
  Forall (λ m, 2 ≤ len m) (omap matchDbFile before) →
  matchDbFile line = Some m → len m < 2 →
  findDbFile cenv = Fail (Panicked (bytes "slice bounds out of range")).
Proof.
  intros Hhome Hi Hopen Hbefore Hall Hm Hlen. unfold findDbFile. rewrite Hhome.
  rewrite (firstOpen_first cenv _ i confpath _ Hi Hopen Hbefore).
  rewrite foldR_app, foldR_scanDbFile by done.
  assert (∃ d, match last (omap matchDbFile before) with
               | Some m => expandUser m home
               | None => Ok []
               end = Ok d) as [d ->].
  { destruct (last (omap matchDbFile before)) as [m'|] eqn:Hlast; [|by eexists].
    assert (2 ≤ len m') as Hm'.
    { rewrite Forall_forall in Hall. apply Hall.
      apply last_Some in Hlast as [ms ->]. apply elem_of_app. right. by left. }
    destruct (expandUser_Ok m' home Hm') as (v & -> & _). by eexists. }
  cbn [bind foldR]. unfold scanDbFile at 1. rewrite Hm.
  by rewrite expandUser_short.
Qed.

Definition shortConf : ConfEnv :=
  {| currentHome := inl (bytes "/home/sia");
     xdgConfigHome := bytes "/home/sia/.config";
     openConf := λ path,
       if bool_decide (path = bytes "/home/sia/.config/mpd/mpd.conf")
       then Some ([bytes "db_file " ++ [dquote] ++ bytes "x" ++ [dquote];
                   bytes "db_file " ++ [dquote] ++ bytes "/var/lib/mpd/db" ++ [dquote]],
                  None, None)
       else None |}.

Lemma findDbFile_short_value_panics_witness :
  findDbFile shortConf = Fail (Panicked (bytes "slice bounds out of range")).
Proof.
  apply (findDbFile_short_value_panics shortConf (bytes "/home/sia")
           (bytes "/home/sia/.config/mpd/mpd.conf") []
           [bytes "db_file " ++ [dquote] ++ bytes "/var/lib/mpd/db" ++ [dquote]]
           (bytes "db_file " ++ [dquote] ++ bytes "x" ++ [dquote]) (bytes "x")
           None None 0).
  - reflexivity.
  - vm_compute. reflexivity.
  - vm_compute. reflexivity.
  - intros j p Hj. lia.
  - constructor.
  - vm_compute. reflexivity.
  - vm_compute. reflexivity.
Defined.

(** ** File names *)

Lemma HasPrefix_byte_notin (c : ascii) (s : gostring) (n : nat) :
  c ∉ s → GoStrings.HasPrefix (drop n s) [c] = false.
Proof.
  revert n. induction s as [|d s IH]; intros n Hc.
  - by rewrite drop_nil.
  - apply not_elem_of_cons in Hc as [Hne Hc]. destruct n as [|n]; [|by apply IH].
    cbn. rewrite bool_decide_eq_false_2; [done|congruence].
Qed.

Lemma LastIndex_byte_notin (c : ascii) (s : gostring) :
  c ∉ s → GoStrings.LastIndex s [c] = -1.
Proof.
  intros Hc. apply LastIndex_none; [done|]. intros n.
  by apply HasPrefix_byte_notin.
Qed.

Lemma LastIndex_byte_last (c : ascii) (v p : gostring) :
  c ∉ p → GoStrings.LastIndex (v ++ c :: p) [c] = len v.
Proof.
  intros Hc. apply (LastIndex_last v [c] p); [done|].
  intros [|n] Hn; [lia|]. cbn [app drop]. by apply HasPrefix_byte_notin.
Qed.

Lemma lastElement_name (name : gostring) :
  Filepath.Separator ∉ name → Filepath.lastElement name = name.
Proof.
  intros Hn. unfold Filepath.lastElement. by rewrite LastIndex_byte_notin.
Qed.

Lemma lastElement_dir (dir name : gostring) :
  Filepath.Separator ∉ name →
  Filepath.lastElement (dir ++ Filepath.Separator :: name) = name.
Proof.
  intros Hn. unfold Filepath.lastElement. rewrite LastIndex_byte_last by done.
  replace (len dir + 1) with (len (dir ++ [Filepath.Separator]))
    by by rewrite len_app.
  change (dir ++ Filepath.Separator :: name)
    with (dir ++ [Filepath.Separator] ++ name).
  rewrite app_assoc. apply slice_from_app.
Qed.

Lemma stripTrailingSeparators_name (pre name : gostring) :
  name ≠ [] → Filepath.Separator ∉ name →
  rev (Filepath.stripTrailingSeparators (rev (pre ++ name))) = pre ++ name.
Proof.
  intros Hne Hsep. destruct name as [|c name _] using rev_ind; [done|].
  rewrite app_assoc, rev_unit. cbn [Filepath.stripTrailingSeparators].
  rewrite bool_decide_eq_false_2.
  - rewrite <- rev_unit. apply rev_involutive.
  - intros ->. apply Hsep. apply elem_of_app. right. by left.
Qed.

Lemma Base_name (name : gostring) :
  name ≠ [] → Filepath.Separator ∉ name → Filepath.Base name = name.
Proof.
  intros Hne Hsep. unfold Filepath.Base.
  rewrite bool_decide_eq_false_2 by done.
  pose proof (stripTrailingSeparators_name [] name Hne Hsep) as Hstrip.
  cbn [app] in Hstrip. rewrite Hstrip.
  rewrite lastElement_name by done. by rewrite bool_decide_eq_false_2.
Qed.

Lemma Base_dir (dir name : gostring) :
  name ≠ [] → Filepath.Separator ∉ name →
  Filepath.Base (dir ++ Filepath.Separator :: name) = name.
Proof.
  intros Hne Hsep. unfold Filepath.Base.
  rewrite bool_decide_eq_false_2 by by destruct dir.
  change (dir ++ Filepath.Separator :: name)
    with (dir ++ [Filepath.Separator] ++ name).
  rewrite app_assoc, stripTrailingSeparators_name by done.
  rewrite <- app_assoc. cbn [app].
  rewrite lastElement_dir by done. by rewrite bool_decide_eq_false_2.
Qed.

Lemma TrimSuffix_Ext_dot (stem ext : gostring) :
  Filepath.Separator ∉ stem → Filepath.Separator ∉ ext → "."%char ∉ ext →
  GoStrings.TrimSuffix (stem ++ "."%char :: ext)
                       (Filepath.Ext (stem ++ "."%char :: ext)) = stem.
Proof.
  intros Hs He Hdot.
  assert (Filepath.Ext (stem ++ "."%char :: ext) = "."%char :: ext) as ->.
  { unfold Filepath.Ext. rewrite lastElement_name.
    - change (bytes ".") with ["."%char]. rewrite LastIndex_byte_last by done.
      pose proof (len_nonneg stem).
      replace (len stem <? 0) with false by (symmetry; apply Z.ltb_ge; lia).
      apply slice_from_app.
    - rewrite not_elem_of_app, not_elem_of_cons. split_and!; [done| |done].
      by_evaluation. }
  unfold GoStrings.TrimSuffix, GoStrings.HasSuffix.
  rewrite length_app.
  replace (length stem + length ("."%char :: ext) - length ("."%char :: ext))%nat
    with (length stem) by lia.
  rewrite drop_app_length, take_app_length.
  rewrite bool_decide_eq_true_2 by done.
  by replace (length ("."%char :: ext) <=? length stem + length ("."%char :: ext))%nat
    with true by (symmetry; apply Nat.leb_le; lia).
Qed.

Lemma TrimSuffix_Ext_none (name : gostring) :
  Filepath.Separator ∉ name → "."%char ∉ name →
  GoStrings.TrimSuffix name (Filepath.Ext name) = name.
Proof.
  intros Hs Hdot.
  assert (Filepath.Ext name = []) as ->.
  { unfold Filepath.Ext. rewrite lastElement_name by done.
    change (bytes ".") with ["."%char]. by rewrite LastIndex_byte_notin. }
  unfold GoStrings.TrimSuffix, GoStrings.HasSuffix. cbn [length].
  rewrite Nat.sub_0_r, drop_all, take_ge by lia.
  by rewrite bool_decide_eq_true_2.
Qed.

(** X13: [withoutExt] drops the directories and, from the last dot of
    the file name on, the extension: [dir/stem.ext] and [stem.ext] give
    [stem] (which may hold dots of its own, or be empty), and a name
    without a dot is returned whole. *)
Theorem withoutExt_strips (dir stem ext name : gostring) :
  (Filepath.Separator ∉ stem → Filepath.Separator ∉ ext → "."%char ∉ ext →
   withoutExt (stem ++ bytes "." ++ ext) = stem
   ∧ withoutExt (dir ++ bytes "/" ++ stem ++ bytes "." ++ ext) = stem)
  ∧ (name ≠ [] → Filepath.Separator ∉ name → "."%char ∉ name →
     withoutExt name = name ∧ withoutExt (dir ++ bytes "/" ++ name) = name).
Proof.
  split.
  - intros Hs He Hdot.
    assert (stem ++ "."%char :: ext ≠ []) as Hne by by destruct stem.
    assert (Filepath.Separator ∉ stem ++ "."%char :: ext) as Hsep.
    { rewrite not_elem_of_app, not_elem_of_cons. split_and!; [done| |done].
      by_evaluation. }
    unfold withoutExt. change (bytes "." ++ ext) with ("."%char :: ext).
    change (bytes "/" ++ ?t) with (Filepath.Separator :: t).
    rewrite Base_name, Base_dir by done. by rewrite TrimSuffix_Ext_dot.
  - intros Hne Hs Hdot. unfold withoutExt.
    change (bytes "/" ++ ?t) with (Filepath.Separator :: t).
    rewrite Base_name, Base_dir by done. by rewrite TrimSuffix_Ext_none.
Qed.

Lemma withoutExt_strips_witness :
  withoutExt (bytes "Music/Air" ++ bytes "/" ++ bytes "01. La femme d'argent"
              ++ bytes "." ++ bytes "flac")
  = bytes "01. La femme d'argent".
Proof.
  destruct (withoutExt_strips (bytes "Music/Air") (bytes "01. La femme d'argent")
              (bytes "flac") []) as [Hext _].
  apply Hext; apply (bool_decide_unpack _); vm_compute; exact I.
Defined.

(** ** More on grouping *)

(** The second loop of [groupByArtist]: [done] is what has been stored,
    [k] the number of slots still nil. *)
Lemma foldR_storeTrack (b done : list Track) (k : nat) :
  (length b ≤ k)%nat →
  foldR storeTrack ((Some <$> done) ++ replicate k None, len done) b
  = Ok ((Some <$> (done ++ b)) ++ replicate (k - length b) None, len (done ++ b)).
Proof.
  revert done k. induction b as [|t b IH]; intros done k Hk.
  - cbn [foldR length]. by rewrite app_nil_r, Nat.sub_0_r.
  - destruct k as [|k]; [cbn in Hk; lia|]. cbn [foldR]. unfold storeTrack at 1.
    pose proof (len_nonneg done).
    assert (len ((Some <$> done) ++ replicate (S k) (@None Track))
            = len done + Z.of_nat (S k)) as ->.
    { unfold len. rewrite length_app, length_fmap, length_replicate. lia. }
    rewrite andb_true_intro; [|split; [apply Z.leb_le|apply Z.ltb_lt]; lia].
    cbn [bind]. unfold len at 1. rewrite Nat2Z.id.
    rewrite insert_app_r_alt by (rewrite length_fmap; lia).
    rewrite length_fmap, Nat.sub_diag. cbn [replicate].
    change (<[0%nat:=Some t]> (None :: replicate k None))
      with ([Some t] ++ replicate k None).
    rewrite app_assoc.
    change ((Some <$> done) ++ [Some t]) with ((Some <$> done) ++ (Some <$> [t])).
    rewrite <- fmap_app.
    replace (len done + 1) with (len (done ++ [t])) by by rewrite len_app.
    rewrite IH by (cbn in Hk; lia).
    by rewrite <- app_assoc.
Qed.

Lemma foldR_buckets (B : gostring → list Track) (order : list gostring)
    (done : list Track) (k : nat) :
  (length (concat (B <$> order)) ≤ k)%nat →
  foldR (λ st a, foldR storeTrack st (B a))
        ((Some <$> done) ++ replicate k None, len done) order
  = Ok ((Some <$> (done ++ concat (B <$> order)))
        ++ replicate (k - length (concat (B <$> order))) None,
        len (done ++ concat (B <$> order))).
Proof.
  revert done k. induction order as [|a order IH]; intros done k Hk.
  - cbn [foldR fmap list_fmap concat length]. by rewrite app_nil_r, Nat.sub_0_r.
  - cbn [fmap list_fmap concat] in *. rewrite length_app in Hk.
    cbn [foldR]. rewrite foldR_storeTrack by lia. cbn [bind].
    rewrite IH by lia. rewrite length_app, <- app_assoc.
    by replace (k - length (B a) - length (concat (B <$> order)))%nat
      with (k - (length (B a) + length (concat (B <$> order))))%nat by lia.
Qed.

Lemma concat_buckets_perm (order : list gostring) (tracks : list Track) :
  NoDup order → (∀ t, t ∈ tracks → Artist t ∈ order) →
  concat (bucket tracks <$> order) ≡ₚ tracks.
Proof.
  intros Hnd. revert tracks.
  induction Hnd as [|a order Ha Hnd IH]; intros tracks Hcover.
  - destruct tracks as [|t tracks]; [done|].
    specialize (Hcover t). rewrite elem_of_nil in Hcover.
    exfalso. apply Hcover. by left.
  - cbn [fmap list_fmap concat].
    set (others := filter (λ t, ¬ (Artist t = a)) tracks).
    assert (bucket tracks <$> order = bucket others <$> order) as ->.
    { apply list_fmap_ext. intros i a' Hi. unfold bucket, others.
      rewrite list_filter_filter_l; [done|].
      intros t -> ->. apply Ha. by eapply list_elem_of_lookup_2. }
    rewrite IH.
    + apply (filter_app_complement (λ t, Artist t = a)).
    + intros t [Hne Ht]%list_elem_of_filter.
      specialize (Hcover t Ht). apply elem_of_cons in Hcover as [?|?]; done.
Qed.

Lemma foldR_ext {A B} (f g : B → A → result B) (b : B) (xs : list A) :
  (∀ b x, f b x = g b x) → foldR f b xs = foldR g b xs.
Proof.
  intros Hfg. revert b. induction xs as [|x xs IH]; intros b; [done|].
  cbn [foldR]. rewrite Hfg. destruct (g b x); [apply IH|done].
Qed.

(** X14: for every order in which the map of artists is visited (each
    artist of the input once), [groupByArtist] writes every slot of the
    result: it does not panic, leaves no nil, and returns the tracks of
    the input, each as often as it occurs there, bucket after bucket in
    the order visited. *)
Theorem groupByArtist_permutation (order : list gostring) (tracks : list Track) :
  NoDup order → (∀ a, a ∈ order ↔ a ∈ dom (artistsOf tracks)) →
  ∃ out, groupByArtist order tracks = Ok (Some <$> out)
         ∧ out = concat (bucket tracks <$> order)
         ∧ out ≡ₚ tracks.
Proof.
  intros Hnd Hdom.
  assert (concat (bucket tracks <$> order) ≡ₚ tracks) as Hperm.
  { apply concat_buckets_perm; [done|]. intros t Ht.
    apply Hdom, artistsOf_dom. by exists t. }
  exists (concat (bucket tracks <$> order)). split_and!; [|done|done].
  unfold groupByArtist.
  rewrite (foldR_ext _ (λ st a, foldR storeTrack st (bucket tracks a)))
    by (intros st a; by rewrite artistsOf_default).
  pose proof (foldR_buckets (bucket tracks) order [] (length tracks)) as Hfold.
  cbn [fmap list_fmap app] in Hfold. change (len (@nil Track)) with 0 in Hfold.
  rewrite Hfold by (by rewrite Hperm).
  cbn [bind fst]. rewrite (Permutation_length Hperm), Nat.sub_diag.
  cbn [replicate]. by rewrite app_nil_r.
Qed.

Lemma groupByArtist_permutation_witness :
  ∃ out, groupByArtist [bytes "Air"; bytes "Sia"] [siaTrack; airTrack; chandelier]
           = Ok (Some <$> out)
         ∧ out = concat (bucket [siaTrack; airTrack; chandelier]
                           <$> [bytes "Air"; bytes "Sia"])
         ∧ out ≡ₚ [siaTrack; airTrack; chandelier].
Proof.
  apply groupByArtist_permutation.
  - apply (bool_decide_unpack _). vm_compute. exact I.
  - intros a. rewrite artistsOf_dom. split.
    + intros [->|[->|[]%elem_of_nil]%elem_of_cons]%elem_of_cons.
      * exists airTrack. split; [|reflexivity]. right. left.
      * exists siaTrack. split; [|reflexivity]. left.
    + intros (t & Hin & <-).
      apply elem_of_cons in Hin as [->|Hin]; [right; left|].
      apply elem_of_cons in Hin as [->|Hin]; [left|].
      apply elem_of_cons in Hin as [->|Hin]; [right; left|].
      by apply elem_of_nil in Hin.
Defined.

(** ** Durations of whole seconds *)

(** The text for [n] seconds: minutes and seconds of the hour, two
    digits each, after the count of hours when [n] exceeds one hour. *)
Definition clockText (n : Z) : gostring :=
  bytes "("
  ++ (if 3600 <? n then Sprintf_d (n / 3600) ++ bytes ":" else [])
  ++ GoTime.pad2 (n mod 3600 / 60) ++ bytes ":" ++ GoTime.pad2 (n mod 60)
  ++ bytes ")".

Fixpoint eqbBytes (a b : gostring) : bool :=
  match a, b with
  | [], [] => true
  | c :: a', d :: b' => Ascii.eqb c d && eqbBytes a' b'
  | _, _ => false
  end.

Lemma eqbBytes_eq (a b : gostring) : eqbBytes a b = true → a = b.
Proof.
  revert b. induction a as [|c a IH]; intros [|d b]; cbn; try done.
  intros [Hc Hab]%andb_prop. apply Ascii.eqb_eq in Hc. subst d.
  f_equal. by apply IH.
Qed.

Definition clockChecked (n : nat) : bool :=
  eqbBytes (formatDurationString (Sprintf_d (Z.of_nat n))) (clockText (Z.of_nat n)).

Lemma clockChecked_two_hours :
  forallb clockChecked (seq 0 (Z.to_nat 7201)) = true.
Proof. vm_compute. reflexivity. Qed.

(** X15: for every whole number of seconds from 0 to 7200, written in
    decimal, [formatDurationString] gives the minutes and seconds of the
    hour between parentheses, two digits each, and puts the hours before
    them only when the duration exceeds one hour: 3600 seconds read
    [(00:00)], 3601 read [(1:00:01)]. *)
Theorem formatDurationString_whole_seconds (n : Z) :
  0 ≤ n ≤ 7200 → formatDurationString (Sprintf_d n) = clockText n.
Proof.
  intros Hn. pose proof clockChecked_two_hours as Hall.
  rewrite forallb_forall in Hall. specialize (Hall (Z.to_nat n)).
  unfold clockChecked in Hall. rewrite Z2Nat.id in Hall by lia.
  apply eqbBytes_eq, Hall. apply in_seq. lia.
Qed.

Lemma formatDurationString_whole_seconds_witness :
  formatDurationString (Sprintf_d 3600) = clockText 3600.
Proof. apply formatDurationString_whole_seconds. lia. Defined.

Example clockText_hour_boundary :
  clockText 3600 = bytes "(00:00)" ∧ clockText 3601 = bytes "(1:00:01)"
  ∧ clockText 215 = bytes "(03:35)".
Proof. vm_compute. done. Qed.

(** ** When the formatter and the decoder fail *)

Section FormatFacts.
Context `{Unicode}.


End FormatFacts.

Lemma mapR_Fail {A B} (f : A → result B) (xs : list A) (e : failure) :
  mapR f xs = Fail e → ∃ x, x ∈ xs ∧ f x = Fail e.
Proof.
  induction xs as [|x xs IH]; [done|]. cbn [mapR].
  destruct (f x) as [y|e'] eqn:Hx; cbn [bind].
  - destruct (mapR f xs) as [ys|e'']; cbn [bind]; [done|].
    intros [= ->]. destruct (IH eq_refl) as (x' & Hin & Hx').
    exists x'. split; [by right|done].
  - intros [= ->]. exists x. split; [by left|done].
Qed.

(** X17: for a block that ends with a newline and whose first line is
    not empty, [parseFzfOutput] fails exactly when one of the lines
    before that newline has no delimiter and fewer than three bytes (an
    empty line, for one); the failure is then the slice panic. *)
Theorem parseFzfOutput_fails_iff (lines : list gostring) :
  lines ≠ [] → Forall (λ l, newline ∉ l) lines → head lines ≠ Some [] →
  (∃ e, parseFzfOutput (GoStrings.Join lines [newline] ++ [newline]) = Fail e)
  ↔ ∃ l, l ∈ lines ∧ ¬ hasDelimiter l ∧ len l < 3.
Proof.
  intros Hne Hall Hhd. rewrite parseFzfOutput_terminated by done. split.
  - intros [e (l & Hin & Hl)%mapR_Fail]. exists l. split; [done|].
    destruct (decide (0 ≤ GoStrings.LastIndex l delimiter)) as [Hd|Hd].
    + apply hasDelimiter_LastIndex, decodeLine_found in Hd as (? & ? & _ & _ & Hok).
      congruence.
    + assert (¬ hasDelimiter l) as Hno by by rewrite hasDelimiter_LastIndex.
      split; [done|]. rewrite decodeLine_malformed in Hl by done.
      destruct (3 <=? len l) eqn:E; [done|]. by apply Z.leb_gt in E.
  - intros (l & Hin & Hno & Hlen).
    destruct (mapR decodeLine lines) as [songs|e] eqn:Hmap; [|by exists e].
    apply mapR_Ok in Hmap as [_ Hlook].
    apply list_elem_of_lookup in Hin as [i Hi].
    destruct (Hlook i l Hi) as (y & Hy & _).
    rewrite decodeLine_malformed in Hy by done.
    apply Z.leb_gt in Hlen. by rewrite Hlen in Hy.
Qed.

Lemma parseFzfOutput_fails_iff_witness :
  ∃ e, parseFzfOutput (GoStrings.Join [bytes "Sia////a.mp3"; []] [newline]
                       ++ [newline]) = Fail e.
Proof.
  apply (parseFzfOutput_fails_iff [bytes "Sia////a.mp3"; []]).
  - discriminate.
  - repeat constructor; apply (bool_decide_unpack _); vm_compute; exact I.
  - vm_compute. discriminate.
  - exists []. split_and!.
    + right. left.
    + rewrite hasDelimiter_LastIndex. vm_compute. intros Habs. by apply Habs.
    + vm_compute. reflexivity.
Defined.

Section ExitFacts.
Context `{Unicode}.
Variable env : Env.

Lemma insertSongs_result (songs : list gostring) (tr : list event) :
  (insertSongs env songs tr).1 = Ok None →
  mpcInsertStart env = None ∧ mpcInsertClose env = None ∧ mpcInsertWait env = None.
Proof.
  unfold insertSongs, bindM, emit, ret.
  destruct (mpcInsertStart env); [done|].
  destruct (mpcInsertClose env); [done|].
  cbn [fst]. by intros [= ->].
Qed.

Lemma insertSongs_Ok (songs : list gostring) (tr : list event) :
  ∃ err, (insertSongs env songs tr).1 = Ok err.
Proof.
  unfold insertSongs, bindM, emit, ret.
  destruct (mpcInsertStart env); [by eexists|].
  destruct (mpcInsertClose env); by eexists.
Qed.

(** X18: [main] returns (exit status 0 without a call of [os.Exit]) only
    if the tracks were read and the selection came back, and then either
    the selection is empty or every step of the removal and of the
    insertion reported no error. *)
Theorem main_returns_only_on_success :
  (main env []).1 = Ok tt →
  ∃ tracks songs tr,
    (readTracks env []).1 = Ok tracks
    ∧ fzfSongs env tracks [] = (Ok songs, tr)
    ∧ (songs = []
       ∨ ((mpcPlaylist env).2 = None ∧ mpcDelStart env = None
          ∧ mpcDelClose env = None ∧ mpcDelWait env = None
          ∧ mpcInsertStart env = None ∧ mpcInsertClose env = None
          ∧ mpcInsertWait env = None)).
Proof.
  unfold main, bindM.
  pose proof (readTracks_trace env []) as Hread.
  destruct (readTracks env []) as [[tracks|f] tr1]; cbn [snd fst] in *; subst tr1;
    [|done].
  destruct (fzfSongs env tracks []) as [[songs|f] tr] eqn:Hfzf; [|done].
  intros Hmain. exists tracks, songs, tr. split_and!; [done|done|].
  destruct (len songs =? 0) eqn:Hlen.
  { left. apply Z.eqb_eq in Hlen. unfold len in Hlen. by destruct songs. }
  right.
  destruct (removeSongs_run env songs tr) as (err & evs & Hrm & _ & Herr).
  rewrite Hrm in Hmain. destruct err as [e|]; [done|].
  destruct (Herr eq_refl) as (? & ? & ? & ? & _).
  cbn [lift fail] in Hmain.
  pose proof (insertSongs_result songs (tr ++ evs)) as Hins.
  destruct (insertSongs env songs (tr ++ evs)) as [[[e|]|f] tr'];
    cbn [fst] in *; [done| |done].
  destruct (Hins eq_refl) as (? & ? & ?). by split_and!.
Qed.

End ExitFacts.

Lemma main_returns_only_on_success_witness :
  ∃ tracks songs tr,
    (readTracks sampleEnv []).1 = Ok tracks
    ∧ fzfSongs sampleEnv tracks [] = (Ok songs, tr)
    ∧ (songs = []
       ∨ ((mpcPlaylist sampleEnv).2 = None ∧ mpcDelStart sampleEnv = None
          ∧ mpcDelClose sampleEnv = None ∧ mpcDelWait sampleEnv = None
          ∧ mpcInsertStart sampleEnv = None ∧ mpcInsertClose sampleEnv = None
          ∧ mpcInsertWait sampleEnv = None)).
Proof.
  apply (main_returns_only_on_success sampleEnv). vm_compute. reflexivity.
Defined.
